(** * suseejs/bundler: import merging, dual-format compilation, stripping
      handlers and the bundle pipeline, embedded from the TypeScript sources.

    Text is a sequence of code units below 256 ([string] of the Standard
    Library, a character standing for the code unit of its number).  On
    such text the definitions below follow ECMAScript's [String.prototype]
    and [RegExp] semantics; the white space and the line terminators of
    ECMAScript above that range are not part of the model. *)

From Stdlib Require Import Strings.String Strings.Ascii Lists.List Bool.Bool
  Arith.Arith Arith.PeanoNat micromega.Lia Sorting.Sorted
  Sorting.Permutation.
Import ListNotations.
Local Open Scope string_scope.
Local Open Scope list_scope.

(* ================================================================== *)
(** ** Characters and character classes *)

Module Chars.

Definition TAB : ascii := "009"%char.
Definition LF : ascii := "010"%char.
Definition VT : ascii := "011"%char.
Definition FF : ascii := "012"%char.
Definition CR : ascii := "013"%char.
Definition SP : ascii := " "%char.
Definition NBSP : ascii := "160"%char.
Definition DQ : ascii := "034"%char.
Definition SQ : ascii := "039"%char.

(** [\s], and what [trim] strips: the white space and the line terminators
    of ECMAScript, of which the no-break space is the one beyond ASCII in
    this range *)
Definition is_space (c : ascii) : bool :=
  Ascii.eqb c TAB || Ascii.eqb c LF || Ascii.eqb c VT || Ascii.eqb c FF
  || Ascii.eqb c CR || Ascii.eqb c SP || Ascii.eqb c NBSP.

(** line terminators: what [.] refuses and what [^] and [$] look for under
    the [m] flag *)
Definition is_line_terminator (c : ascii) : bool :=
  Ascii.eqb c LF || Ascii.eqb c CR.

(** [.] *)
Definition is_dot (c : ascii) : bool := negb (is_line_terminator c).

Definition in_range (lo hi : nat) (c : ascii) : bool :=
  let n := nat_of_ascii c in Nat.leb lo n && Nat.leb n hi.

(** [\w] is [A-Za-z0-9_] *)
Definition is_word (c : ascii) : bool :=
  in_range 65 90 c || in_range 97 122 c || in_range 48 57 c
  || Ascii.eqb c "_"%char.

(** the class of the two quote characters *)
Definition is_quote (c : ascii) : bool := Ascii.eqb c DQ || Ascii.eqb c SQ.

(** its complement *)
Definition not_quote (c : ascii) : bool := negb (is_quote c).


(** the class [{}] *)
Definition is_brace (c : ascii) : bool :=
  Ascii.eqb c "{"%char || Ascii.eqb c "}"%char.

End Chars.

(* ================================================================== *)
(** ** A backtracking matcher for the regular expressions of the sources *)

Module Regex.
Import Chars.

Inductive regex : Type :=
| Eps
| Chr (c : ascii)
| Cls (p : ascii -> bool)
| Seq (r1 r2 : regex)
| Alt (r1 r2 : regex)
| Star (greedy : bool) (r : regex)
| Opt (r : regex)
| Grp (i : nat) (r : regex)
| Bol
| Eol
| NotAhead (r : regex).

(** the matcher's position: the character before it (for [^]), the text
    still to read, and the capture groups closed so far (latest first) *)
Record mstate : Type := MState {
  st_prev : option ascii;
  st_rest : string;
  st_caps : list (nat * string)
}.

Definition step (a : ascii) (s : string) (st : mstate) : mstate :=
  MState (Some a) s (st_caps st).

Definition at_line_start (st : mstate) : bool :=
  match st_prev st with
  | None => true
  | Some c => is_line_terminator c
  end.

Definition at_line_end (st : mstate) : bool :=
  match st_rest st with
  | EmptyString => true
  | String c _ => is_line_terminator c
  end.

Definition close_group (i : nat) (st0 st : mstate) : mstate :=
  let n := String.length (st_rest st0) - String.length (st_rest st) in
  MState (st_prev st) (st_rest st)
         ((i, substring 0 n (st_rest st0)) :: st_caps st).

(** the loop of a quantifier [r*] or [r*?]: [body] matches [r] once, [n]
    bounds the iterations by the length of the text left, and an iteration
    that consumes nothing is refused, as ECMAScript does *)
Fixpoint star_loop (A : Type) (greedy : bool)
    (body : mstate -> (mstate -> option A) -> option A)
    (k : mstate -> option A) (n : nat) (st0 : mstate) {struct n} : option A :=
  match n with
  | 0 => k st0
  | S n' =>
      let again (_ : unit) :=
        body st0 (fun st1 =>
          if Nat.ltb (String.length (st_rest st1)) (String.length (st_rest st0))
          then star_loop A greedy body k n' st1 else None) in
      if greedy then
        match again tt with
        | Some x => Some x
        | None => k st0
        end
      else
        match k st0 with
        | Some x => Some x
        | None => again tt
        end
  end.

(** [rmatch r st k]: match [r] at [st], then hand the position reached to
    the continuation [k]; alternatives are tried in ECMAScript's order
    (left branch first, a greedy quantifier longest first, a lazy one
    shortest first). *)
Fixpoint rmatch (r : regex) (A : Type) (st : mstate)
    (k : mstate -> option A) {struct r} : option A :=
  match r with
  | Eps => k st
  | Chr c =>
      match st_rest st with
      | String a s => if Ascii.eqb a c then k (step a s st) else None
      | EmptyString => None
      end
  | Cls p =>
      match st_rest st with
      | String a s => if p a then k (step a s st) else None
      | EmptyString => None
      end
  | Seq r1 r2 => rmatch r1 A st (fun st1 => rmatch r2 A st1 k)
  | Alt r1 r2 =>
      match rmatch r1 A st k with
      | Some x => Some x
      | None => rmatch r2 A st k
      end
  | Star greedy r1 =>
      star_loop A greedy (rmatch r1 A) k (String.length (st_rest st)) st
  | Opt r1 =>
      match rmatch r1 A st k with
      | Some x => Some x
      | None => k st
      end
  | Grp i r1 => rmatch r1 A st (fun st1 => k (close_group i st st1))
  | Bol => if at_line_start st then k st else None
  | Eol => if at_line_end st then k st else None
  | NotAhead r1 =>
      match rmatch r1 unit st (fun _ => Some tt) with
      | Some _ => None
      | None => k st
      end
  end.

(** one attempt, at the position given *)
Definition match_at (r : regex) (prev : option ascii) (s : string)
  : option mstate :=
  rmatch r mstate (MState prev s []) (fun st => Some st).

(** [RegExp.prototype.exec] without the [g] flag: the first position, from
    the left, at which an attempt succeeds *)
Fixpoint search (r : regex) (prev : option ascii) (s : string)
  : option mstate :=
  match match_at r prev s with
  | Some st => Some st
  | None =>
      match s with
      | EmptyString => None
      | String c s' => search r (Some c) s'
      end
  end.

Definition exec (r : regex) (s : string) : option mstate := search r None s.

(** [RegExp.prototype.test] *)
Definition test (r : regex) (s : string) : bool :=
  match exec r s with Some _ => true | None => false end.

(** the text of capture group [i], [None] when the group did not take part *)
Fixpoint capture (i : nat) (caps : list (nat * string)) : option string :=
  match caps with
  | [] => None
  | (j, s) :: caps' => if Nat.eqb i j then Some s else capture i caps'
  end.

(** [String.prototype.replace] with a [g]-flagged pattern and a replacement
    text without [$]: [skip] counts the characters of the last match that
    are still to be passed over. *)
Fixpoint scan (r : regex) (rep : string) (skip : nat) (prev : option ascii)
    (s : string) {struct s} : string :=
  match s with
  | EmptyString =>
      match skip, match_at r prev EmptyString with
      | 0, Some _ => rep
      | _, _ => EmptyString
      end
  | String c s' =>
      match skip with
      | S k => scan r rep k (Some c) s'
      | 0 =>
          match match_at r prev s with
          | Some st =>
              match String.length s - String.length (st_rest st) with
              | 0 => rep ++ String c (scan r rep 0 (Some c) s')
              | S k => rep ++ scan r rep k (Some c) s'
              end
          | None => String c (scan r rep 0 (Some c) s')
          end
      end
  end.

Definition replace_all (r : regex) (rep : string) (s : string) : string :=
  scan r rep 0 None s.

(** the character before the position reached by reading [m] *)
Fixpoint prev_after (m : string) (prev : option ascii) : option ascii :=
  match m with
  | EmptyString => prev
  | String a m' => prev_after m' (Some a)
  end.

(** a continuation that fails wherever the text left satisfies [inv] *)
Definition dead (inv : string -> Prop) {A : Type} (k : mstate -> option A)
  : Prop :=
  forall st, inv (st_rest st) -> k st = None.


(** a literal run of characters *)
Fixpoint lit (s : string) : regex :=
  match s with
  | EmptyString => Eps
  | String c EmptyString => Chr c
  | String c s' => Seq (Chr c) (lit s')
  end.

(** [r+] and [r+?] *)
Definition plus (greedy : bool) (r : regex) : regex := Seq r (Star greedy r).

(** sequencing of a list of pieces *)
Fixpoint seqs (rs : list regex) : regex :=
  match rs with
  | [] => Eps
  | [r] => r
  | r :: rs' => Seq r (seqs rs')
  end.

Definition ws : regex := Cls is_space.
Definition word : regex := Cls is_word.
Definition dot : regex := Cls is_dot.
Definition quote : regex := Cls is_quote.
Definition nonquote : regex := Cls not_quote.

End Regex.

(* ================================================================== *)
(** ** The string and array methods the sources call *)

Module Js.
Import Chars.

(** [s.includes(pat)] *)
Fixpoint includes (pat s : string) : bool :=
  prefix pat s ||
  match s with
  | EmptyString => false
  | String _ s' => includes pat s'
  end.

(** [s.startsWith(pat)] *)
Definition startsWith (pat s : string) : bool := prefix pat s.


Fixpoint trimStart (s : string) : string :=
  match s with
  | EmptyString => EmptyString
  | String c s' => if is_space c then trimStart s' else s
  end.

Fixpoint trimEnd (s : string) : string :=
  match s with
  | EmptyString => EmptyString
  | String c s' =>
      match trimEnd s' with
      | EmptyString => if is_space c then EmptyString else String c EmptyString
      | t => String c t
      end
  end.

(** [s.trim()] *)
Definition trim (s : string) : string := trimEnd (trimStart s).

(** [s.split(sep)] for a separator of one character *)
Fixpoint split (sep : ascii) (s : string) : list string :=
  match s with
  | EmptyString => [EmptyString]
  | String c s' =>
      if Ascii.eqb c sep then EmptyString :: split sep s'
      else match split sep s' with
           | h :: t => String c h :: t
           | [] => [String c EmptyString]
           end
  end.

(** [xs.join(sep)] *)
Definition join (sep : string) (xs : list string) : string :=
  String.concat sep xs.

(** [xs.filter(Boolean)] on strings: the empty string is the falsy one *)
Definition filterBoolean (xs : list string) : list string :=
  filter (fun x => negb (String.eqb x EmptyString)) xs.

Fixpoint drop (n : nat) (s : string) : string :=
  match n, s with
  | 0, _ => s
  | S n', String _ s' => drop n' s'
  | S _, EmptyString => EmptyString
  end.

(** [s.replace(pat, rep)] with a text pattern and a replacement without [$]:
    the first occurrence only *)
Fixpoint replace (pat rep s : string) : string :=
  if prefix pat s then rep ++ drop (String.length pat) s
  else match s with
       | EmptyString => EmptyString
       | String c s' => String c (replace pat rep s')
       end.

(** [xs.sort()] without a comparator: ascending by code units *)
Fixpoint insert_sorted (x : string) (xs : list string) : list string :=
  match xs with
  | [] => [x]
  | y :: ys => if String.leb x y then x :: xs else y :: insert_sorted x ys
  end.

Definition sort (xs : list string) : list string :=
  fold_right insert_sorted [] xs.

(** [Set<string>]: the members in insertion order *)
Definition JsSet : Type := list string.

Definition set_has (x : string) (s : JsSet) : bool :=
  existsb (String.eqb x) s.

Definition set_add (x : string) (s : JsSet) : JsSet :=
  if set_has x s then s else (s ++ [x])%list.

Definition set_add_all (xs : list string) (s : JsSet) : JsSet :=
  fold_left (fun acc x => set_add x acc) xs s.

(** [Map<string, Set<string>>]: the entries in insertion order *)
Definition JsMap : Type := list (string * JsSet).

Fixpoint map_get (k : string) (m : JsMap) : option JsSet :=
  match m with
  | [] => None
  | (k', v) :: m' => if String.eqb k k' then Some v else map_get k m'
  end.

Definition map_has (k : string) (m : JsMap) : bool :=
  match map_get k m with Some _ => true | None => false end.

Fixpoint map_set (k : string) (v : JsSet) (m : JsMap) : JsMap :=
  match m with
  | [] => [(k, v)]
  | (k', v') :: m' =>
      if String.eqb k k' then (k, v) :: m' else (k', v') :: map_set k v m'
  end.

(** [if (!m.has(k)) m.set(k, new Set())] *)
Definition map_ensure (k : string) (m : JsMap) : JsMap :=
  if map_has k m then m else map_set k [] m.

(** [m.get(k)?.add(x)]: the set is shared with the map, so the map sees it *)
Fixpoint map_add (k x : string) (m : JsMap) : JsMap :=
  match m with
  | [] => []
  | (k', v) :: m' =>
      if String.eqb k k' then (k', set_add x v) :: m'
      else (k', v) :: map_add k x m'
  end.

(** every character of the text passes [p] *)
Fixpoint all_chars (p : ascii -> bool) (s : string) : Prop :=
  match s with
  | EmptyString => True
  | String a s' => p a = true /\ all_chars p s'
  end.

Definition dquoted (s : string) : string :=
  String DQ (s ++ String DQ EmptyString).

End Js.

(* ================================================================== *)
(** ** remove/mergeImports.ts *)

Module Merge.
Import Chars Regex Js.

(** [/import\s+(?:type\s+)?(?:(.*?)\s+from\s+)?[quote]([^quote]+)[quote];?/] *)
Definition importRe : regex :=
  seqs [ lit "import"; plus true ws;
         Opt (seqs [lit "type"; plus true ws]);
         Opt (seqs [Grp 1 (Star false dot); plus true ws; lit "from";
                    plus true ws]);
         quote; Grp 2 (plus true nonquote); quote; Opt (Chr ";") ].

(** [/import\s+(?:type\s+)?(\w+)/] *)
Definition defaultRe : regex :=
  seqs [ lit "import"; plus true ws;
         Opt (seqs [lit "type"; plus true ws]);
         Grp 1 (plus true word) ].

(** [/\*\s+as\s+(\w+)/] *)
Definition namespaceRe : regex :=
  seqs [ Chr "*"; plus true ws; lit "as"; plus true ws;
         Grp 1 (plus true word) ].

(** [/[{}]/g] *)
Definition braceRe : regex := Cls is_brace.

Record Maps : Type := MkMaps {
  importMap : JsMap;
  typeImportMap : JsMap;
  defaultImports : JsMap;
  typeDefaultImports : JsMap;
  namespaceImports : JsMap
}.

Definition emptyMaps : Maps := MkMaps [] [] [] [] [].

(** the map a name goes to *)
Inductive Target : Type :=
| TImport | TTypeImport | TDefault | TTypeDefault | TNamespace.

Definition Target_eqb (a b : Target) : bool :=
  match a, b with
  | TImport, TImport | TTypeImport, TTypeImport | TDefault, TDefault
  | TTypeDefault, TTypeDefault | TNamespace, TNamespace => true
  | _, _ => false
  end.

Definition getMap (t : Target) (ms : Maps) : JsMap :=
  match t with
  | TImport => importMap ms
  | TTypeImport => typeImportMap ms
  | TDefault => defaultImports ms
  | TTypeDefault => typeDefaultImports ms
  | TNamespace => namespaceImports ms
  end.

Definition setMap (t : Target) (m : JsMap) (ms : Maps) : Maps :=
  match t with
  | TImport =>
      MkMaps m (typeImportMap ms) (defaultImports ms)
             (typeDefaultImports ms) (namespaceImports ms)
  | TTypeImport =>
      MkMaps (importMap ms) m (defaultImports ms)
             (typeDefaultImports ms) (namespaceImports ms)
  | TDefault =>
      MkMaps (importMap ms) (typeImportMap ms) m
             (typeDefaultImports ms) (namespaceImports ms)
  | TTypeDefault =>
      MkMaps (importMap ms) (typeImportMap ms) (defaultImports ms)
             m (namespaceImports ms)
  | TNamespace =>
      MkMaps (importMap ms) (typeImportMap ms) (defaultImports ms)
             (typeDefaultImports ms) m
  end.

Definition ensure (t : Target) (modulePath : string) (ms : Maps) : Maps :=
  setMap t (map_ensure modulePath (getMap t ms)) ms.

Definition addName (t : Target) (modulePath name : string) (ms : Maps)
  : Maps :=
  setMap t (map_add modulePath name (getMap t ms)) ms.

(** [importStr.match(importRe)]: the clause (group 1, if it took part) and
    the module path (group 2) *)
Definition importMatch (importStr : string) : option (option string * string) :=
  match exec importRe importStr with
  | None => None
  | Some st =>
      match capture 2 (st_caps st) with
      | Some modulePath => Some (capture 1 (st_caps st), modulePath)
      | None => None
      end
  end.

Definition defaultMatch (importStr : string) : option string :=
  match exec defaultRe importStr with
  | None => None
  | Some st => capture 1 (st_caps st)
  end.

Definition namespaceMatch (importClause : string) : option string :=
  match exec namespaceRe importClause with
  | None => None
  | Some st => capture 1 (st_caps st)
  end.

(** the names of a braced clause *)
Definition clauseNames (importClause : string) : list string :=
  filterBoolean
    (map trim (split ","%char (replace_all braceRe "" importClause))).

(** one turn of the parsing loop *)
Definition parseImport (ms : Maps) (importStr : string) : Maps :=
  match importMatch importStr with
  | None => ms
  | Some (clause, modulePath) =>
      let isTypeImport := includes "import type" importStr in
      let falsy := match clause with
                   | None => true
                   | Some c => String.eqb c EmptyString
                   end in
      if falsy then
        match defaultMatch importStr with
        | Some importName =>
            let t := if isTypeImport then TTypeDefault else TDefault in
            addName t modulePath importName (ensure t modulePath ms)
        | None => ms
        end
      else
        let importClause :=
          match clause with Some c => c | None => EmptyString end in
        if startsWith "{" importClause then
          let t := if isTypeImport then TTypeImport else TImport in
          fold_left (fun acc name => addName t modulePath name acc)
                    (clauseNames importClause) (ensure t modulePath ms)
        else if startsWith "* as" importClause then
          match namespaceMatch importClause with
          | Some namespaceName =>
              addName TNamespace modulePath namespaceName
                      (ensure TNamespace modulePath ms)
          | None => ms
          end
        else
          let t := if isTypeImport then TTypeDefault else TDefault in
          addName t modulePath (trim importClause) (ensure t modulePath ms)
  end.

Definition parseImports (imports : list string) : Maps :=
  fold_left parseImport imports emptyMaps.

(** [new Set([...regular])] followed by the loop adding the type names the
    regular set lacks *)
Definition finalNames (regularNames typeNames : JsSet) : JsSet :=
  fold_left (fun acc typeName =>
               if set_has typeName regularNames then acc
               else set_add typeName acc)
            typeNames regularNames.

Definition orEmpty (o : option JsSet) : JsSet :=
  match o with Some s => s | None => [] end.

Definition fromClause (modulePath : string) : string :=
  " from " ++ dquoted modulePath ++ ";".

(** the five emitting loops, in the order of the source *)
Definition namedStatements (ms : Maps) : list string :=
  flat_map (fun '(modulePath, regularNames) =>
    let typeNames := orEmpty (map_get modulePath (typeImportMap ms)) in
    let final := finalNames regularNames typeNames in
    if Nat.ltb 0 (List.length final)
    then [("import { " ++ join ", " (sort final) ++ " }"
             ++ fromClause modulePath)%string]
    else []) (importMap ms).

Definition typeNamedStatements (ms : Maps) : list string :=
  flat_map (fun '(modulePath, typeNames) =>
    if negb (map_has modulePath (importMap ms))
       && Nat.ltb 0 (List.length typeNames)
    then [("import type { " ++ join ", " (sort typeNames) ++ " }"
             ++ fromClause modulePath)%string]
    else []) (typeImportMap ms).

Definition defaultStatements (ms : Maps) : list string :=
  flat_map (fun '(modulePath, regularDefaultNames) =>
    let typeDefaultNames :=
      orEmpty (map_get modulePath (typeDefaultImports ms)) in
    let final := finalNames regularDefaultNames typeDefaultNames in
    if Nat.ltb 0 (List.length final)
    then [("import " ++ join ", " final ++ fromClause modulePath)%string]
    else []) (defaultImports ms).

Definition typeDefaultStatements (ms : Maps) : list string :=
  flat_map (fun '(modulePath, typeDefaultNames) =>
    if negb (map_has modulePath (defaultImports ms))
       && Nat.ltb 0 (List.length typeDefaultNames)
    then [("import type " ++ join ", " typeDefaultNames
             ++ fromClause modulePath)%string]
    else []) (typeDefaultImports ms).

Definition namespaceStatements (ms : Maps) : list string :=
  flat_map (fun '(modulePath, names) =>
    if Nat.ltb 0 (List.length names)
    then [("import * as " ++ join ", " names ++ fromClause modulePath)%string]
    else []) (namespaceImports ms).

Definition mergedImports (ms : Maps) : list string :=
  (namedStatements ms ++ typeNamedStatements ms ++ defaultStatements ms
   ++ typeDefaultStatements ms ++ namespaceStatements ms)%list.

Definition mergeImports (imports : list string) : list string :=
  sort (mergedImports (parseImports imports)).

(** *** The emitted statements as import records

    The record of the data model: a module path, a kind and the bindings.
    [emitted] lists the records the five loops stand for, [render] gives the
    text of one; that the source returns the sorted rendering of these
    records is proved below. *)
Inductive Kind : Type :=
| NamedValue | NamedType | DefaultValue | DefaultType | Namespace.

(** the value and the type-only kind of one clause form go together *)
Inductive Form : Type := NamedForm | DefaultForm | NamespaceForm.

Definition formOf (k : Kind) : Form :=
  match k with
  | NamedValue | NamedType => NamedForm
  | DefaultValue | DefaultType => DefaultForm
  | Namespace => NamespaceForm
  end.

Definition formOfTarget (t : Target) : Form :=
  match t with
  | TImport | TTypeImport => NamedForm
  | TDefault | TTypeDefault => DefaultForm
  | TNamespace => NamespaceForm
  end.

Record ImportRecord : Type := MkImportRecord {
  kind : Kind;
  modulePath : string;
  bindings : list string
}.

Definition render (r : ImportRecord) : string :=
  let from := fromClause (modulePath r) in
  match kind r with
  | NamedValue => "import { " ++ join ", " (bindings r) ++ " }" ++ from
  | NamedType => "import type { " ++ join ", " (bindings r) ++ " }" ++ from
  | DefaultValue => "import " ++ join ", " (bindings r) ++ from
  | DefaultType => "import type " ++ join ", " (bindings r) ++ from
  | Namespace => "import * as " ++ join ", " (bindings r) ++ from
  end.

(** what may not occur twice among the records: the form and the module
    path *)
Definition recordKey (r : ImportRecord) : Form * string :=
  (formOf (kind r), modulePath r).

(** a record for a value entry, with the type names the entry lacks *)
Definition valueRecord (k : Kind) (order : JsSet -> list string)
    (typeMap : JsMap) (entry : string * JsSet) : list ImportRecord :=
  let final := finalNames (snd entry) (orEmpty (map_get (fst entry) typeMap)) in
  if Nat.ltb 0 (List.length final)
  then [MkImportRecord k (fst entry) (order final)] else [].

(** a record for a type-only entry whose module path has no value entry *)
Definition typeRecord (k : Kind) (order : JsSet -> list string)
    (valueMap : JsMap) (entry : string * JsSet) : list ImportRecord :=
  if negb (map_has (fst entry) valueMap)
     && Nat.ltb 0 (List.length (snd entry))
  then [MkImportRecord k (fst entry) (order (snd entry))] else [].

Definition namespaceRecord (entry : string * JsSet) : list ImportRecord :=
  if Nat.ltb 0 (List.length (snd entry))
  then [MkImportRecord Namespace (fst entry) (snd entry)] else [].

Definition emitted (ms : Maps) : list ImportRecord :=
  (flat_map (valueRecord NamedValue sort (typeImportMap ms)) (importMap ms)
   ++ flat_map (typeRecord NamedType sort (importMap ms)) (typeImportMap ms)
   ++ flat_map (valueRecord DefaultValue (fun x => x) (typeDefaultImports ms))
               (defaultImports ms)
   ++ flat_map (typeRecord DefaultType (fun x => x) (defaultImports ms))
               (typeDefaultImports ms)
   ++ flat_map namespaceRecord (namespaceImports ms))%list.

(** the maps the parsing loop builds hold a module path once and a name once
    per module path *)
Definition wfMap (m : JsMap) : Prop :=
  NoDup (map fst m) /\ Forall (fun e => NoDup (snd e)) m.

Definition wfMaps (ms : Maps) : Prop := forall t, wfMap (getMap t ms).

(** the name [x] is recorded for the module path [k] in the map [t] *)
Definition recorded (t : Target) (k x : string) (ms : Maps) : Prop :=
  exists v, map_get k (getMap t ms) = Some v /\ In x v.

(** the module path [k] has an entry in the map [t] *)
Definition known (t : Target) (k : string) (ms : Maps) : Prop :=
  map_has k (getMap t ms) = true.

(** what one statement adds: an entry for its module path in one map, and
    names under it *)
Definition recordAll (t : Target) (k : string) (names : list string)
    (ms : Maps) : Maps :=
  fold_left (fun acc name => addName t k name acc) names (ensure t k ms).

(** ascending order of [sort] *)
Definition ascending (a b : string) : Prop := String.leb a b = true.

End Merge.

(* ================================================================== *)
(** ** opt/compile.ts: the two dialect compilers *)

Module Compile.
Import Chars Regex Js.

(** [(code, file?) => string] *)
Definition OutPutHook : Type := string -> string -> string.

Inductive ModuleKind : Type := CommonJS | ES2022.

(** [/.js/g], [/.map.js/g] and [/.d.ts/g]: the dots are not escaped *)
Definition jsRe : regex := seqs [dot; lit "js"].
Definition mapJsRe : regex := seqs [dot; lit "map"; dot; lit "js"].
Definition dtsRe : regex := seqs [dot; Chr "d"; dot; lit "ts"].

(** [if (hooks?.length) for (const hook of hooks)
      content = hook(content, outName)] *)
Definition runHooks (hooks : option (list OutPutHook)) (outName : string)
    (content : string) : string :=
  match hooks with
  | None => content
  | Some hs => fold_left (fun acc hook => hook acc outName) hs content
  end.

Definition cjsOutName (outName : string) : string :=
  replace_all dtsRe ".d.cts"
    (replace_all mapJsRe ".map.cjs" (replace_all jsRe ".cjs" outName)).

Definition esmOutName (outName : string) : string :=
  replace_all dtsRe ".d.mts"
    (replace_all mapJsRe ".map.mjs" (replace_all jsRe ".mjs" outName)).

Section Compilers.

(** [utils.extname] of the package @suseejs/utils, and the host compiler's
    emit into the in-memory [createdFiles] record *)
Variable extname : string -> string.
Variable emit : ModuleKind -> string -> string -> list (string * string).

(** the text substitutions of [commonjsCompiler], in source order *)
Definition cjsSubstitute (outName content : string) : string :=
  let ext := extname outName in
  let content1 :=
    if String.eqb ext ".js"
    then replace "exports.default = bundle;" "module.exports = bundle;" content
    else content in
  if String.eqb ext ".ts"
  then replace "export default bundle;" "export = bundle;" content1
  else content1.

Definition cjsContent (hooks : option (list OutPutHook))
    (outName content : string) : string :=
  runHooks hooks outName (cjsSubstitute outName content).

Definition esmContent (hooks : option (list OutPutHook))
    (outName content : string) : string :=
  runHooks hooks outName content.

(** the [utils.writeFile] calls each compiler issues, one per emitted file *)
Definition commonjsCompiler (sourceCode fileName : string)
    (hooks : option (list OutPutHook)) : list (string * string) :=
  map (fun '(outName, content) =>
         (cjsOutName outName, cjsContent hooks outName content))
      (emit CommonJS sourceCode fileName).

Definition esmCompiler (sourceCode fileName : string)
    (hooks : option (list OutPutHook)) : list (string * string) :=
  map (fun '(outName, content) =>
         (esmOutName outName, esmContent hooks outName content))
      (emit ES2022 sourceCode fileName).

End Compilers.


(** a stand-in for [utils.extname], after Node's [path.extname]: from the
    last dot of the last path segment, a leading dot apart *)
Fixpoint basename (s : string) : string :=
  match s with
  | EmptyString => EmptyString
  | String c s' =>
      if includes "/" s' then basename s'
      else if Ascii.eqb c "/"%char then s' else s
  end.

Fixpoint lastDot (s : string) : option string :=
  match s with
  | EmptyString => None
  | String c s' =>
      match lastDot s' with
      | Some e => Some e
      | None => if Ascii.eqb c "."%char then Some s else None
      end
  end.

Definition pathExtname (s : string) : string :=
  match basename s with
  | EmptyString => EmptyString
  | String _ b =>
      match lastDot b with Some e => e | None => EmptyString end
  end.

End Compile.

(* ================================================================== *)
(** ** remove/imports.ts, remove/exports.ts, dependency.ts and bundle.ts *)

Module Bundle.
Import Chars Regex Js Merge.

Record DepsFile : Type := MkDepsFile { file : string; content : string }.

(** a call either returns or throws *)
Inductive Result (A : Type) : Type :=
| Ok (a : A)
| Throw (e : string).
Arguments Ok {A} a.
Arguments Throw {A} e.

Definition bind {A B : Type} (r : Result A) (f : A -> Result B) : Result B :=
  match r with
  | Ok a => f a
  | Throw e => Throw e
  end.

Notation "x <- r ;; k" := (bind r (fun x => k))
  (at level 61, r at next level, right associativity).

(** [/^s*;\s*$/gm] *)
Definition semicolonLineRe : regex :=
  seqs [Bol; Star true (Chr "s"); Chr ";"; Star true ws; Eol].

(** [_content.replace(/^s*;\s*$/gm, quote quote).trim()] *)
Definition cleanup (_content : string) : string :=
  trim (replace_all semicolonLineRe "" _content).

(** the non-relative test of [bundle]:
    [/[quote]((?!\.\/|\.\.\/)[^quote]+)[quote]/] *)
Definition regexpGroup : regex :=
  seqs [NotAhead (Alt (lit "./") (lit "../")); plus true nonquote].

Definition regexp : regex := seqs [quote; Grp 1 regexpGroup; quote].

(** what the resolver of @suseejs/dependencies hands back: [sort()],
    [mutual()] and [warn()] *)
Record Deps : Type := MkDeps {
  sort_ : list string;
  mutual : list (string * string);
  warn : list string
}.

Record BundleOptions : Type := MkBundleOptions {
  tsconfigPath : option string;
  renameDuplicates : option bool
}.

Record Bundled : Type := MkBundled { bundleContent : string; isJsx : bool }.

Definition nl : string := String LF EmptyString.

(** a unit is checked for a line that holds a semicolon and white space
    only *)
Definition semicolonOnlyLine (line : string) : bool :=
  String.eqb (trim line) ";".

Definition hasSemicolonOnlyLine (text : string) : bool :=
  existsb semicolonOnlyLine (split LF text).

(** the part of the TypeScript syntax tree the two visitors tell apart *)
Inductive Modifier : Type :=
| ExportKeyword | DefaultKeyword | DeclareKeyword | AsyncKeyword
| AbstractKeyword.

Inductive DeclKind : Type :=
| FunctionDeclaration | ClassDeclaration | InterfaceDeclaration
| TypeAliasDeclaration | EnumDeclaration | VariableStatement.

(** [node.modifiers] is absent on a declaration without modifiers; [text]
    stands for the parts of a node the visitors hand on as they are, and for
    [node.getText(sourceFile)] on the import nodes *)
#[local] Unset Elimination Schemes.
Inductive Node : Type :=
| SourceFile (statements : list Node)
| Declaration (kind : DeclKind) (modifiers : option (list Modifier))
              (text : string) (children : list Node)
| ExportDeclaration (text : string)
| ExportAssignment (expression : Node)
| ImportDeclaration (text : string)
| ImportEqualsDeclaration (text : string)
| Identifier (name : string)
| EmptyStatement
| OtherNode (text : string) (children : list Node).
#[local] Set Elimination Schemes.

Definition keptModifier (m : Modifier) : bool :=
  match m with
  | ExportKeyword | DefaultKeyword => false
  | _ => true
  end.

(** [modifiers?.length !== node.modifiers?.length] *)
Definition lengthDiffers (a b : option (list Modifier)) : bool :=
  match a, b with
  | Some x, Some y => negb (Nat.eqb (List.length x) (List.length y))
  | None, None => false
  | _, _ => true
  end.

(** the visitor of remove/exports.ts; [ts.visitEachChild] is the [map] over
    the children *)
Fixpoint exportVisitor (node : Node) : Node :=
  match node with
  | Declaration kind mods text children =>
      let modifiers := option_map (filter keptModifier) mods in
      if lengthDiffers modifiers mods
      then Declaration kind modifiers text children
      else Declaration kind mods text (map exportVisitor children)
  | ExportDeclaration _ => EmptyStatement
  | ExportAssignment expr =>
      match expr with
      | Identifier _ => EmptyStatement
      | _ => ExportAssignment (exportVisitor expr)
      end
  | SourceFile statements => SourceFile (map exportVisitor statements)
  | OtherNode text children => OtherNode text (map exportVisitor children)
  | ImportDeclaration _ | ImportEqualsDeclaration _ | Identifier _
  | EmptyStatement => node
  end.

(** [stripsMarker mods]: the declaration carries an export or default
    marker, which the visitor takes away *)
Definition stripsMarker (mods : option (list Modifier)) : bool :=
  lengthDiffers (option_map (filter keptModifier) mods) mods.

(** a tree the export visitor has nothing to do in *)
Fixpoint exportFree (node : Node) : bool :=
  match node with
  | Declaration _ mods _ children =>
      negb (stripsMarker mods) && forallb exportFree children
  | ExportDeclaration _ => false
  | ExportAssignment expr =>
      match expr with
      | Identifier _ => false
      | _ => exportFree expr
      end
  | SourceFile children | OtherNode _ children => forallb exportFree children
  | ImportDeclaration _ | ImportEqualsDeclaration _ | Identifier _
  | EmptyStatement => true
  end.

(** a tree in which a declaration that carries a marker holds nothing the
    visitor would change: markers sit at the top of a module or namespace,
    as the TypeScript grammar checks demand *)
Fixpoint wellNested (node : Node) : bool :=
  match node with
  | Declaration _ mods _ children =>
      if stripsMarker mods then forallb exportFree children
      else forallb wellNested children
  | ExportAssignment expr => wellNested expr
  | SourceFile children | OtherNode _ children => forallb wellNested children
  | ExportDeclaration _ | ImportDeclaration _ | ImportEqualsDeclaration _
  | Identifier _ | EmptyStatement => true
  end.

(** the visitor of remove/imports.ts, with the shared [removedStatements]
    array threaded through the walk *)
Fixpoint importVisitor (node : Node) (removedStatements : list string)
  : Node * list string :=
  let visitEach :=
    fix visitEach (children : list Node) (removed : list string)
      : list Node * list string :=
      match children with
      | [] => ([], removed)
      | c :: cs =>
          let '(c1, removed1) := importVisitor c removed in
          let '(cs1, removed2) := visitEach cs removed1 in
          (c1 :: cs1, removed2)
      end in
  match node with
  | ImportDeclaration text =>
      (EmptyStatement, (removedStatements ++ [text])%list)
  | ImportEqualsDeclaration text =>
      (EmptyStatement, (removedStatements ++ [text])%list)
  | SourceFile statements =>
      let '(cs, removed) := visitEach statements removedStatements in
      (SourceFile cs, removed)
  | Declaration kind mods text children =>
      let '(cs, removed) := visitEach children removedStatements in
      (Declaration kind mods text cs, removed)
  | OtherNode text children =>
      let '(cs, removed) := visitEach children removedStatements in
      (OtherNode text cs, removed)
  | ExportAssignment expr =>
      let '(e, removed) := importVisitor expr removedStatements in
      (ExportAssignment e, removed)
  | ExportDeclaration _ | Identifier _ | EmptyStatement =>
      (node, removedStatements)
  end.

(** the walk of the import visitor over a list of children, on its own *)
Fixpoint importVisitEach (children : list Node) (removed : list string)
  : list Node * list string :=
  match children with
  | [] => ([], removed)
  | c :: cs =>
      let '(c1, removed1) := importVisitor c removed in
      let '(cs1, removed2) := importVisitEach cs removed1 in
      (c1 :: cs1, removed2)
  end.

(** the source text of the import nodes of a tree, in the order a depth-first
    walk meets them *)
Fixpoint importTexts (node : Node) : list string :=
  match node with
  | ImportDeclaration text | ImportEqualsDeclaration text => [text]
  | SourceFile children | Declaration _ _ _ children
  | OtherNode _ children => flat_map importTexts children
  | ExportAssignment expr => importTexts expr
  | ExportDeclaration _ | Identifier _ | EmptyStatement => []
  end.

(** the tree with an empty statement for every import node *)
Fixpoint stripImports (node : Node) : Node :=
  match node with
  | ImportDeclaration _ | ImportEqualsDeclaration _ => EmptyStatement
  | SourceFile children => SourceFile (map stripImports children)
  | Declaration kind mods text children =>
      Declaration kind mods text (map stripImports children)
  | OtherNode text children => OtherNode text (map stripImports children)
  | ExportAssignment expr => ExportAssignment (stripImports expr)
  | ExportDeclaration _ | Identifier _ | EmptyStatement => node
  end.

(** a tree without import nodes *)
Fixpoint importFree (node : Node) : bool :=
  match node with
  | ImportDeclaration _ | ImportEqualsDeclaration _ => false
  | SourceFile children | Declaration _ _ _ children
  | OtherNode _ children => forallb importFree children
  | ExportAssignment expr => importFree expr
  | ExportDeclaration _ | Identifier _ | EmptyStatement => true
  end.

(** [options?.renameDuplicates ?? true] and [options?.tsconfigPath] *)
Definition wantsRename (options : option BundleOptions) : bool :=
  match options with
  | Some o => match renameDuplicates o with Some b => b | None => true end
  | None => true
  end.

Definition configPath (options : option BundleOptions) : option string :=
  match options with Some o => tsconfigPath o | None => None end.

Section Pipeline.

Variable CompilerOptions : Type.

(** [ts.createSourceFile(file, content, ...)] and the printer behind
    [transformFunction] of @suseejs/transformer, which runs the transformer
    on the tree and prints what it returns *)
Variable createSourceFile : string -> string -> Node.
Variable printFile : CompilerOptions -> Node -> string.

Definition transformFunction (transformer : Node -> Node) (sourceFile : Node)
    (compilerOptions : CompilerOptions) : string :=
  printFile compilerOptions (transformer sourceFile).

(** [removeImportExpressionHandler(removedStatements, compilerOptions)]
    applied to one unit; the shared array is threaded through *)
Definition removeImportExpressionHandler (compilerOptions : CompilerOptions)
    (removedStatements : list string) (d : DepsFile)
  : DepsFile * list string :=
  let sourceFile := createSourceFile (file d) (content d) in
  let '(root, removed) := importVisitor sourceFile removedStatements in
  let _content :=
    transformFunction (fun _ => root) sourceFile compilerOptions in
  (MkDepsFile (file d) (cleanup _content), removed).

Definition removeExportExpressionHandler (compilerOptions : CompilerOptions)
    (d : DepsFile) : DepsFile :=
  let sourceFile := createSourceFile (file d) (content d) in
  let _content := transformFunction exportVisitor sourceFile compilerOptions in
  MkDepsFile (file d) (cleanup _content).

(** [deps.map(removeImport[0])] *)
Fixpoint mapRemoveImports (compilerOptions : CompilerOptions)
    (removedStatements : list string) (deps : list DepsFile)
  : list DepsFile * list string :=
  match deps with
  | [] => ([], removedStatements)
  | d :: deps' =>
      let '(d1, removed1) :=
        removeImportExpressionHandler compilerOptions removedStatements d in
      let '(ds, removed2) := mapRemoveImports compilerOptions removed1 deps' in
      (d1 :: ds, removed2)
  end.

(** what the import handler makes of one unit, told by the tree: the
    statements it takes out, and the unit it hands back *)
Definition importsOf (d : DepsFile) : list string :=
  importTexts (createSourceFile (file d) (content d)).

Definition withoutImports (compilerOptions : CompilerOptions) (d : DepsFile)
  : DepsFile :=
  MkDepsFile (file d)
    (cleanup (printFile compilerOptions
                (stripImports (createSourceFile (file d) (content d))))).

Variable dependencies : string -> Result Deps.
Variable resolvePath : string -> string.
Variable readFile : string -> string.
Variable tsconfig : option string -> CompilerOptions.
Variable fileExtensionAndFormat : list DepsFile -> Result unit.
Variable checkTypes : list DepsFile -> CompilerOptions -> Result unit.
Variable checkJSX : list DepsFile -> bool.
Variable renamed : list DepsFile -> CompilerOptions -> Result (list DepsFile).
Variable notRenamed :
  list DepsFile -> CompilerOptions -> Result (list DepsFile).
Variable anonymous : list DepsFile -> CompilerOptions -> Result (list DepsFile).

Definition circularMessage (i : string * string) : string :=
  fst i ++ " -> " ++ snd i ++ " " ++ nl ++ " " ++ snd i ++ " -> " ++ fst i
  ++ " " ++ nl.

Definition unknownMessage (i : string) : string := i ++ nl.

Definition getDependencies (entry : string)
  : Result (list string * list string) :=
  deps <- dependencies entry ;;
  let sorted := sort_ deps in
  let circular := map circularMessage (mutual deps) in
  let unknown := map unknownMessage (warn deps) in
  let messages1 :=
    if Nat.ltb 0 (List.length circular) then [join "" circular] else [] in
  let messages2 :=
    if Nat.ltb 0 (List.length unknown)
    then (messages1 ++ [join "" unknown])%list else messages1 in
  Ok (sorted, messages2).

Definition dependency (entry : string)
  : Result (list DepsFile * list string) :=
  deps <- getDependencies entry ;;
  let depFiles :=
    map (fun dep => let f := resolvePath dep in MkDepsFile f (readFile f))
        (fst deps) in
  Ok (depFiles, snd deps).

(** [xs.slice(-1)] *)
Definition sliceLast {A : Type} (xs : list A) : list A :=
  match rev xs with
  | [] => []
  | x :: _ => [x]
  end.

(** steps 9 and 10 of [bundle] *)
Definition hoistImports (removedStatements : list string) : list string :=
  mergeImports (filter (test regexp) removedStatements).

Definition assemble (removedStatements : list string)
    (depsFiles mainFile : list DepsFile) : string :=
  let content0 := trim (join nl removedStatements) in
  trim (content0 ++ nl ++ join nl (map content depsFiles) ++ nl
        ++ join nl (map content mainFile)).

Definition bundle (entry : string) (options : option BundleOptions)
  : Result Bundled :=
  let reName :=
    match options with
    | Some o => match renameDuplicates o with Some b => b | None => true end
    | None => true
    end in
  dependencies_ <- dependency entry ;;
  let deps := fst dependencies_ in
  let compilerOptions :=
    tsconfig (match options with Some o => tsconfigPath o | None => None end) in
  _ <- fileExtensionAndFormat deps ;;
  _ <- checkTypes deps compilerOptions ;;
  let isJsx := checkJSX deps in
  deps1 <- (if reName then renamed deps compilerOptions
            else notRenamed deps compilerOptions) ;;
  deps2 <- anonymous deps1 compilerOptions ;;
  let '(deps3, removedStatements) :=
    mapRemoveImports compilerOptions [] deps2 in
  let depsFiles :=
    map (removeExportExpressionHandler compilerOptions) (removelast deps3) in
  let mainFile := sliceLast deps3 in
  let removedStatements1 := hoistImports removedStatements in
  Ok (MkBundled (assemble removedStatements1 depsFiles mainFile) isJsx).

End Pipeline.

End Bundle.

(* ================================================================== *)
(** ** Stand-ins for the external collaborators, for concrete runs *)

Module Fixtures.
Import Chars Regex Js Merge Compile Bundle.
Local Open Scope string_scope.

(** a printer in the manner of the TypeScript one: a statement per line,
    four spaces per level of nesting *)
Definition printModifier (m : Modifier) : string :=
  match m with
  | ExportKeyword => "export "
  | DefaultKeyword => "default "
  | DeclareKeyword => "declare "
  | AsyncKeyword => "async "
  | AbstractKeyword => "abstract "
  end.

Definition printModifiers (mods : option (list Modifier)) : string :=
  match mods with
  | Some ms => String.concat "" (map printModifier ms)
  | None => ""
  end.

Fixpoint printNode (indent : string) (node : Node) : string :=
  let block (head : string) (children : list Node) : string :=
    match children with
    | [] => indent ++ head ++ nl
    | _ =>
        indent ++ head ++ " {" ++ nl
        ++ String.concat "" (map (printNode (indent ++ "    ")) children)
        ++ indent ++ "}" ++ nl
    end in
  match node with
  | SourceFile statements =>
      String.concat "" (map (printNode indent) statements)
  | Declaration _ mods text children =>
      block (printModifiers mods ++ text) children
  | OtherNode text children => block text children
  | ExportDeclaration text | ImportDeclaration text
  | ImportEqualsDeclaration text => indent ++ text ++ nl
  | ExportAssignment expr =>
      indent ++ "export default " ++ printNode "" expr ++ ";" ++ nl
  | Identifier name => name
  | EmptyStatement => indent ++ ";" ++ nl
  end.

Definition printStub (_ : unit) (root : Node) : string := printNode "" root.

(** a unit whose import sits inside a namespace, and its syntax tree *)
Definition nestedUnit : DepsFile :=
  MkDepsFile "a.ts"
    ("namespace A {" ++ nl ++ "    import B = C.D;" ++ nl ++ "    B.run();"
     ++ nl ++ "}").

Definition nestedTree : Node :=
  SourceFile
    [ OtherNode "namespace A"
        [ ImportEqualsDeclaration "import B = C.D;";
          OtherNode "B.run();" [] ] ].

Definition nestedParse (_ _ : string) : Node := nestedTree.

(** a declaration that carries the export marker and holds another one *)
Definition exportInExport : Node :=
  SourceFile
    [ Declaration FunctionDeclaration (Some [ExportKeyword]) "function f()"
        [ Declaration VariableStatement (Some [ExportKeyword])
            "const x = 1;" [] ] ].

(** collaborators that change nothing and never throw; the parser stand-in
    takes the whole text for one statement *)
Definition leafParse (_ content : string) : Node :=
  SourceFile [OtherNode content []].
Definition okUnit (_ : list DepsFile) : Result unit := Ok tt.
Definition okTypes (_ : list DepsFile) (_ : unit) : Result unit := Ok tt.
Definition okDeps (deps : list DepsFile) (_ : unit) : Result (list DepsFile) :=
  Ok deps.
Definition noJsx (_ : list DepsFile) : bool := false.
Definition readStub (f : string) : string := "const " ++ f ++ " = 1;".

(** two resolvers that agree on the order of the files; the second one also
    reports a circular reference and an unknown module *)
Definition quietResolver (_ : string) : Result Deps :=
  Ok (MkDeps ["a"; "b"] [] []).
Definition noisyResolver (_ : string) : Result Deps :=
  Ok (MkDeps ["a"; "b"] [("a", "b")] ["left-pad"]).

Definition stubBundle (resolver : string -> Result Deps) : Result Bundled :=
  bundle unit leafParse printStub resolver
         (fun p => p) readStub (fun _ => tt) okUnit okTypes noJsx
         okDeps okDeps okDeps "b" None.

Definition stubDependency (resolver : string -> Result Deps)
  : Result (list DepsFile * list string) :=
  dependency resolver (fun p => p) readStub "b".

(** a hook that marks the text it receives *)
Definition tagHook : OutPutHook := fun code _ => ("[hook]" ++ code)%string.

End Fixtures.

(* ================================================================== *)
(** * Properties *)

Import Chars Regex Js Merge Compile Bundle Fixtures.
Local Open Scope string_scope.


(** every test on the way to a match has passed *)
Ltac shape_ifs H :=
  repeat (match type of H with
          | (if ?b then _ else _) = _ =>
              let E := fresh "E" in
              destruct b eqn:E;
              [ try (apply Ascii.eqb_eq in E; subst) | discriminate H ]
          end);
  try discriminate H.




(** ** Runs of [mergeImports] on concrete statement lists *)

(** C1: the code departs from the claim.  The type test of the source is
    [importStr.includes] on the text [import type], which a value import of
    a name that begins with [type] also contains, so such a value import is
    filed as type-only.  On its own it comes back as a type-only statement;
    next to the type-only import of the same name from the same module path
    the output holds the type-only statement alone and no value statement,
    where the header comment of [mergeImports] keeps the regular import
    only. *)
Theorem mergeImports_takes_value_import_for_type :
  mergeImports
    [ "import typescript from " ++ dquoted "typescript" ++ ";" ]%string
  = [ "import type typescript from " ++ dquoted "typescript" ++ ";" ]%string
  /\ mergeImports
       [ "import typescript from " ++ dquoted "typescript" ++ ";";
         "import type typescript from " ++ dquoted "typescript" ++ ";" ]%string
     = [ "import type typescript from " ++ dquoted "typescript" ++ ";" ]%string.
Proof. split; vm_compute; reflexivity. Qed.

(** C2: the code departs from the claim.  A named import whose clause spans
    several lines matches no pattern of the merger, since the clause group
    does not cross a line break, and an alias-style import matches none
    either: both leave nothing behind, and the names they bind are not in
    the output.  A default import combined with a braced clause is filed
    whole as one default name, so its braced name is emitted a second time,
    in the value statement of the named imports of the same module path. *)
Theorem mergeImports_loses_and_repeats_names :
  mergeImports
    [ "import {" ++ nl ++ "  readFile" ++ nl ++ "} from "
      ++ dquoted "fs" ++ ";" ]%string = []
  /\ mergeImports [ "import fs = require(" ++ dquoted "fs" ++ ");" ]%string
     = []
  /\ mergeImports
       [ "import React, { useState } from " ++ dquoted "react" ++ ";";
         "import { useState } from " ++ dquoted "react" ++ ";" ]%string
     = [ "import React, { useState } from " ++ dquoted "react" ++ ";";
         "import { useState } from " ++ dquoted "react" ++ ";" ]%string.
Proof. repeat split; vm_compute; reflexivity. Qed.

(** Named and default imports are merged apart, each form in statements of
    its own: a name with a named value import keeps its type-only default
    import from the same module path, and a name imported in the default
    and in the named form is emitted in two value statements. *)
Lemma mergeImports_keeps_forms_apart :
  mergeImports
    [ "import { x } from " ++ dquoted "m" ++ ";";
      "import type x from " ++ dquoted "m" ++ ";" ]%string
  = [ "import type x from " ++ dquoted "m" ++ ";";
      "import { x } from " ++ dquoted "m" ++ ";" ]%string
  /\ mergeImports
       [ "import x from " ++ dquoted "m" ++ ";";
         "import { x } from " ++ dquoted "m" ++ ";" ]%string
     = [ "import x from " ++ dquoted "m" ++ ";";
         "import { x } from " ++ dquoted "m" ++ ";" ]%string.
Proof. split; vm_compute; reflexivity. Qed.

(** C3, as stated, fails: [mergeImports] has no test on the module
    specifier, a relative import handed to it comes back in the output. *)
Lemma mergeImports_keeps_relative :
  mergeImports [ "import { a } from " ++ dquoted "./a" ++ ";" ]%string
  = [ "import { a } from " ++ dquoted "./a" ++ ";" ]%string.
Proof. vm_compute. reflexivity. Qed.


(** ** Runs of the dialect compilers and of the pipeline *)

(** C5, as stated, fails: the static-import compiler rewrites nothing; a
    declaration artifact leaves it as it came, whichever idiom it holds. *)
Lemma esm_rewrites_nothing :
  esmContent None "index.d.ts" "export = bundle;" = "export = bundle;"
  /\ esmContent None "index.d.ts" "export = bundle;"
     <> "export default bundle;"
  /\ esmContent None "index.d.ts" "export default bundle;"
     = "export default bundle;"
  /\ cjsContent pathExtname None "index.d.ts" "export default bundle;"
     = "export = bundle;".
Proof. repeat split; try (vm_compute; reflexivity). discriminate. Qed.

(** C7, as stated, fails: [dependency] hands the findings to [bundle] as
    messages, and [bundle] returns its content and JSX flag only: a resolver
    that reports a circular reference and an unknown module yields the very
    result of one that reports nothing. *)
Lemma bundle_drops_findings :
  stubDependency noisyResolver
  = Ok ([ MkDepsFile "a" "const a = 1;"; MkDepsFile "b" "const b = 1;" ],
        [ "a -> b " ++ nl ++ " b -> a " ++ nl; "left-pad" ++ nl ]%string)
  /\ stubBundle noisyResolver = stubBundle quietResolver
  /\ stubBundle noisyResolver
     = Ok (MkBundled ("const a = 1;" ++ nl ++ "const b = 1;") false).
Proof. repeat split; vm_compute; reflexivity. Qed.

(** C8: the unit returned by the import-stripping handler should hold no
    line made of a semicolon and white space.  The clean-up pattern of the
    source starts with [s*], not with white space: the empty statement the
    printer indents inside a namespace stays.  The path is kept. *)
Theorem removeImport_keeps_indented_semicolon :
  let out := fst (removeImportExpressionHandler unit nestedParse printStub tt
                    [] nestedUnit) in
  file out = file nestedUnit
  /\ content out
     = "namespace A {" ++ nl ++ "    ;" ++ nl ++ "    B.run();" ++ nl ++ "}"
  /\ hasSemicolonOnlyLine (content out) = true.
Proof. repeat split; vm_compute; reflexivity. Qed.

(* ================================================================== *)
(** ** Strings *)

Lemma append_nil_r (s : string) : s ++ "" = s.
Proof. induction s as [|a s IH]; simpl; [reflexivity | now rewrite IH]. Qed.



Lemma prefix_cons_inv (a : ascii) (p s : string) :
  prefix (String a p) s = true ->
  exists s', s = String a s' /\ prefix p s' = true.
Proof.
  destruct s as [|b s]; simpl; [discriminate |].
  destruct (ascii_dec a b) as [->|]; [| discriminate].
  intros H. now exists s.
Qed.

Lemma all_chars_append (p : ascii -> bool) (s t : string) :
  all_chars p (s ++ t) <-> all_chars p s /\ all_chars p t.
Proof.
  induction s as [|a s IH]; simpl; [tauto |]. rewrite IH. tauto.
Qed.

(* ================================================================== *)
(** ** The matcher fails when its continuation can only fail *)

Section Failure.

Variable inv : string -> Prop.
Hypothesis inv_tail : forall a s, inv (String a s) -> inv s.

Lemma star_loop_fails (A : Type) (g : bool)
    (body : mstate -> (mstate -> option A) -> option A)
    (k : mstate -> option A) :
  (forall st k', dead inv k' -> inv (st_rest st) -> body st k' = None) ->
  dead inv k ->
  forall n st, inv (st_rest st) -> star_loop A g body k n st = None.
Proof.
  intros Hbody Hk n. induction n as [|n IH]; intros st Hst; simpl.
  - now apply Hk.
  - rewrite (Hk st Hst).
    rewrite Hbody; [now destruct g | | exact Hst].
    intros st1 H1.
    destruct (Nat.ltb _ _); [now apply IH | reflexivity].
Qed.

Lemma rmatch_fails (r : regex) :
  forall (A : Type) (st : mstate) (k : mstate -> option A),
    dead inv k -> inv (st_rest st) -> rmatch r A st k = None.
Proof.
  induction r as [ | c | p | r1 IH1 r2 IH2 | r1 IH1 r2 IH2 | g r1 IH1
                 | r1 IH1 | i r1 IH1 | | | r1 IH1 ];
    intros A st k Hk Hst; simpl.
  - now apply Hk.
  - destruct (st_rest st) as [|a s] eqn:E; [reflexivity |].
    destruct (Ascii.eqb a c); [| reflexivity].
    apply Hk. simpl. now apply inv_tail with a.
  - destruct (st_rest st) as [|a s] eqn:E; [reflexivity |].
    destruct (p a); [| reflexivity].
    apply Hk. simpl. now apply inv_tail with a.
  - apply IH1; [| exact Hst]. intros st1 H1. now apply IH2.
  - rewrite IH1 by assumption. now apply IH2.
  - apply star_loop_fails; try assumption.
    intros st0 k' Hk' H0. now apply IH1.
  - rewrite IH1 by assumption. now apply Hk.
  - apply IH1; [| exact Hst]. intros st1 H1. now apply Hk.
  - destruct (at_line_start st); [now apply Hk | reflexivity].
  - destruct (at_line_end st); [now apply Hk | reflexivity].
  - destruct (rmatch r1 unit st _); [reflexivity | now apply Hk].
Qed.

(** with no attempt succeeding on such text, the search finds nothing *)
Lemma search_fails (r : regex) :
  (forall prev s, inv s -> match_at r prev s = None) ->
  forall s prev, inv s -> search r prev s = None.
Proof.
  intros H s. induction s as [|a s IH]; intros prev Hs; simpl.
  - now rewrite H.
  - rewrite H by assumption. apply IH. now apply inv_tail with a.
Qed.

End Failure.

(* ================================================================== *)
(** ** One step of the matcher, by the shape of the pattern *)

Lemma rmatch_seq (r1 r2 : regex) (A : Type) (st : mstate)
    (k : mstate -> option A) :
  rmatch (Seq r1 r2) A st k = rmatch r1 A st (fun st1 => rmatch r2 A st1 k).
Proof. reflexivity. Qed.

Lemma rmatch_cls_cons (p : ascii -> bool) (A : Type) (prev : option ascii)
    (a : ascii) (s : string) (caps : list (nat * string))
    (k : mstate -> option A) :
  rmatch (Cls p) A (MState prev (String a s) caps) k
  = if p a then k (MState (Some a) s caps) else None.
Proof. reflexivity. Qed.

Lemma rmatch_chr_cons (c : ascii) (A : Type) (prev : option ascii)
    (a : ascii) (s : string) (caps : list (nat * string))
    (k : mstate -> option A) :
  rmatch (Chr c) A (MState prev (String a s) caps) k
  = if Ascii.eqb a c then k (MState (Some a) s caps) else None.
Proof. reflexivity. Qed.

Lemma rmatch_grp (i : nat) (r : regex) (A : Type) (st : mstate)
    (k : mstate -> option A) :
  rmatch (Grp i r) A st k = rmatch r A st (fun st1 => k (close_group i st st1)).
Proof. reflexivity. Qed.


Lemma rmatch_star (g : bool) (r : regex) (A : Type) (st : mstate)
    (k : mstate -> option A) :
  rmatch (Star g r) A st k
  = star_loop A g (rmatch r A) k (String.length (st_rest st)) st.
Proof. reflexivity. Qed.

Lemma rmatch_notahead (r : regex) (A : Type) (st : mstate)
    (k : mstate -> option A) :
  rmatch (NotAhead r) A st k
  = match rmatch r unit st (fun _ => Some tt) with
    | Some _ => None
    | None => k st
    end.
Proof. reflexivity. Qed.

(* ================================================================== *)
(** ** The non-relative test of [bundle] *)

Lemma not_quote_false (a : ascii) : not_quote a = true -> is_quote a = false.
Proof. unfold not_quote. now destruct (is_quote a). Qed.

Lemma all_not_quote_tail (a : ascii) (s : string) :
  all_chars not_quote (String a s) -> all_chars not_quote s.
Proof. simpl. tauto. Qed.

(** no attempt starts on a character that is not a quote *)
Lemma regexp_needs_quote (prev : option ascii) (a : ascii) (s : string) :
  is_quote a = false -> match_at regexp prev (String a s) = None.
Proof. intros H. unfold match_at, regexp. simpl. now rewrite H. Qed.

Lemma regexp_not_at_end (prev : option ascii) :
  match_at regexp prev "" = None.
Proof. reflexivity. Qed.

Lemma regexp_fails_unquoted (prev : option ascii) (s : string) :
  all_chars not_quote s -> match_at regexp prev s = None.
Proof.
  destruct s as [|a s]; intros H.
  - apply regexp_not_at_end.
  - apply regexp_needs_quote, not_quote_false, H.
Qed.

(** an attempt at the opening quote stops at the look-ahead *)
Lemma regexp_refuses_relative (prev : option ascii) (q : ascii)
    (spec rest : string) :
  startsWith "./" spec = true \/ startsWith "../" spec = true ->
  match_at regexp prev (String q (spec ++ rest)) = None.
Proof.
  intros H. unfold match_at, regexp, seqs, quote.
  rewrite rmatch_seq, rmatch_cls_cons.
  destruct (is_quote q); [| reflexivity].
  unfold regexpGroup, seqs.
  rewrite rmatch_seq, rmatch_grp, rmatch_seq, rmatch_notahead.
  destruct H as [H | H]; unfold startsWith in H.
  - apply prefix_cons_inv in H. destruct H as [s1 [-> H]].
    apply prefix_cons_inv in H. destruct H as [s2 [-> _]].
    reflexivity.
  - apply prefix_cons_inv in H. destruct H as [s1 [-> H]].
    apply prefix_cons_inv in H. destruct H as [s2 [-> H]].
    apply prefix_cons_inv in H. destruct H as [s3 [-> _]].
    reflexivity.
Qed.

(** an attempt at the closing quote finds no second quote after it *)
Lemma regexp_fails_at_closing_quote (prev : option ascii) (q : ascii)
    (post : string) :
  all_chars not_quote post -> match_at regexp prev (String q post) = None.
Proof.
  intros H. unfold match_at, regexp, seqs, quote.
  rewrite rmatch_seq, rmatch_cls_cons.
  destruct (is_quote q); [| reflexivity].
  rewrite rmatch_seq.
  apply (rmatch_fails (all_chars not_quote) all_not_quote_tail); [| exact H].
  intros st Hst.
  destruct st as [p [|a s] caps]; [reflexivity |].
  rewrite rmatch_cls_cons. simpl in Hst.
  now rewrite (not_quote_false a (proj1 Hst)).
Qed.

Lemma search_regexp_unquoted_prefix (pre t : string) :
  all_chars not_quote pre ->
  (forall prev, search regexp prev t = None) ->
  forall prev, search regexp prev (pre ++ t) = None.
Proof.
  intros Hpre Ht. induction pre as [|a pre IH]; intros prev; simpl.
  - apply Ht.
  - destruct Hpre as [Ha Hpre].
    rewrite regexp_needs_quote by now apply not_quote_false.
    now apply IH.
Qed.

Lemma regexp_test_relative (pre spec post : string) (q1 q2 : ascii) :
  all_chars not_quote pre -> all_chars not_quote spec ->
  all_chars not_quote post ->
  startsWith "./" spec = true \/ startsWith "../" spec = true ->
  test regexp (pre ++ String q1 (spec ++ String q2 post)) = false.
Proof.
  intros Hpre Hspec Hpost Hrel. unfold test, exec.
  rewrite search_regexp_unquoted_prefix; trivial.
  intros prev. simpl.
  rewrite regexp_refuses_relative by assumption.
  apply search_regexp_unquoted_prefix; [exact Hspec |].
  intros prev'. simpl.
  rewrite regexp_fails_at_closing_quote by assumption.
  destruct post as [|a post]; [reflexivity |].
  apply (search_fails (all_chars not_quote) all_not_quote_tail);
    [| exact Hpost].
  intros p s Hs. now apply regexp_fails_unquoted.
Qed.

(** C3, amended: the filter of [bundle], not [mergeImports], keeps relative
    imports out.  A removed statement whose only quoted text is a specifier
    that begins with [./] or [../] fails the filter, so the hoisted list
    that [bundle] builds (the filter, then [mergeImports]) is what it would
    be without the statement. *)
Theorem hoistImports_drops_relative
    (pre spec post : string) (q1 q2 : ascii) (l1 l2 : list string) :
  all_chars not_quote pre -> all_chars not_quote spec ->
  all_chars not_quote post ->
  startsWith "./" spec = true \/ startsWith "../" spec = true ->
  hoistImports
    (l1 ++ (pre ++ String q1 (spec ++ String q2 post))%string :: l2)%list
  = hoistImports (l1 ++ l2)%list.
Proof.
  intros Hpre Hspec Hpost Hrel. unfold hoistImports.
  rewrite !filter_app. simpl filter.
  now rewrite regexp_test_relative.
Qed.

Lemma hoistImports_drops_relative_witness :
  hoistImports
    [ "import { readFile } from 'fs';";
      "import { helper } from " ++ dquoted "./a" ++ ";" ]
  = hoistImports [ "import { readFile } from 'fs';" ].
Proof.
  apply (hoistImports_drops_relative "import { helper } from " "./a" ";"
           DQ DQ [ "import { readFile } from 'fs';" ] []);
    try (simpl; repeat split; reflexivity).
  left. reflexivity.
Defined.

(* ================================================================== *)
(** ** Statements the merger passes over *)






Lemma search_cons (r : regex) (prev : option ascii) (a : ascii) (s : string) :
  search r prev (String a s)
  = match match_at r prev (String a s) with
    | Some st => Some st
    | None => search r (Some a) s
    end.
Proof. reflexivity. Qed.

(** a greedy run over a character class goes to the first character the
    class refuses, when the continuation succeeds there *)
Lemma star_cls_greedy (p : ascii -> bool) (A : Type)
    (k : mstate -> option A) (c : ascii) (t : string)
    (caps : list (nat * string)) (x : A) :
  p c = false ->
  forall (m : string) (prev : option ascii),
    all_chars p m ->
    k (MState (prev_after m prev) (String c t) caps) = Some x ->
    rmatch (Star true (Cls p)) A (MState prev (m ++ String c t) caps) k
    = Some x.
Proof.
  intros Hc m. induction m as [|a m IH]; intros prev Hm Hk.
  - rewrite rmatch_star. simpl. rewrite Hc. exact Hk.
  - destruct Hm as [Ha Hm].
    pose proof (IH (Some a) Hm Hk) as E.
    rewrite rmatch_star in *. cbn in E. cbn. rewrite Ha.
    replace (Nat.leb _ _) with true
      by (symmetry; apply Nat.leb_le; lia).
    unfold step in *. cbn [st_caps] in *. now rewrite E.
Qed.













Lemma parseImport_no_match (ms : Maps) (s : string) :
  importMatch s = None -> parseImport ms s = ms.
Proof. intros H. unfold parseImport. now rewrite H. Qed.




(* ================================================================== *)
(** ** Global replacement and the end of a file name *)

Lemma scan_cons (r : regex) (rep : string) (prev : option ascii)
    (c : ascii) (s : string) :
  scan r rep 0 prev (String c s)
  = match match_at r prev (String c s) with
    | Some st =>
        match String.length (String c s) - String.length (st_rest st) with
        | 0 => rep ++ String c (scan r rep 0 (Some c) s)
        | S k => rep ++ scan r rep k (Some c) s
        end
    | None => String c (scan r rep 0 (Some c) s)
    end.
Proof. reflexivity. Qed.
















(* ================================================================== *)
(** ** The text substitutions of the dynamic-require compiler *)

(** [replace] rewrites the occurrence [String.index] finds, the first one,
    and nothing after it *)
Lemma index_cons (pat : string) (c : ascii) (s : string) :
  index 0 pat (String c s)
  = if prefix pat (String c s) then Some 0
    else match index 0 pat s with
         | Some n => Some (S n)
         | None => None
         end.
Proof. reflexivity. Qed.

Lemma replace_cons (pat rep : string) (c : ascii) (s : string) :
  replace pat rep (String c s)
  = if prefix pat (String c s)
    then rep ++ drop (String.length pat) (String c s)
    else String c (replace pat rep s).
Proof. reflexivity. Qed.

Lemma replace_first (pat rep : string) :
  forall (s : string) (n : nat),
    index 0 pat s = Some n ->
    replace pat rep s
    = substring 0 n s ++ rep ++ drop (n + String.length pat) s.
Proof.
  induction s as [|c s IH]; intros n H.
  - destruct pat as [|b pat]; simpl in H; [| discriminate].
    injection H as <-. reflexivity.
  - rewrite index_cons in H. rewrite replace_cons.
    destruct (prefix pat (String c s)).
    + injection H as <-. reflexivity.
    + destruct (index 0 pat s) as [n'|] eqn:E; [| discriminate].
      injection H as <-. rewrite (IH n' eq_refl). reflexivity.
Qed.

Lemma replace_absent (pat rep : string) :
  forall s : string, index 0 pat s = None -> replace pat rep s = s.
Proof.
  induction s as [|c s IH]; intros H.
  - destruct pat as [|b pat]; simpl in H; [discriminate | reflexivity].
  - rewrite index_cons in H. rewrite replace_cons.
    destruct (prefix pat (String c s)); [discriminate |].
    destruct (index 0 pat s) as [n'|] eqn:E; [discriminate |].
    now rewrite IH.
Qed.

Lemma replace_spec (pat rep s : string) :
  replace pat rep s
  = match index 0 pat s with
    | Some n => substring 0 n s ++ rep ++ drop (n + String.length pat) s
    | None => s
    end.
Proof.
  destruct (index 0 pat s) as [n|] eqn:E.
  - now apply replace_first.
  - now apply replace_absent.
Qed.

(** C10: in a script artifact the dynamic-require compiler rewrites the
    first occurrence of the text [exports.default = bundle;], in a
    declaration artifact the first occurrence of [export default bundle;],
    and nothing else: what follows the first occurrence is kept as it is,
    and a text without the exact literal (a default export under another
    name) passes through unchanged. *)
Theorem cjsSubstitute_first_occurrence_only
    (extname : string -> string) (outName content pat rep : string) :
  (extname outName = ".js" /\ pat = "exports.default = bundle;"
   /\ rep = "module.exports = bundle;")
  \/ (extname outName = ".ts" /\ pat = "export default bundle;"
      /\ rep = "export = bundle;") ->
  cjsSubstitute extname outName content
  = match index 0 pat content with
    | Some n =>
        substring 0 n content ++ rep ++ drop (n + String.length pat) content
    | None => content
    end.
Proof.
  intros [[He [-> ->]] | [He [-> ->]]]; unfold cjsSubstitute; rewrite He;
    simpl String.eqb; cbv iota; apply replace_spec.
Qed.

Lemma cjsSubstitute_first_occurrence_only_witness :
  cjsSubstitute pathExtname "dist/index.js"
    "exports.default = bundle; exports.default = bundle;"
  = "module.exports = bundle; exports.default = bundle;"
  /\ cjsSubstitute pathExtname "dist/index.js" "exports.default = main;"
     = "exports.default = main;"
  /\ cjsSubstitute pathExtname "dist/index.d.ts"
       "declare const bundle: number; export default bundle;"
     = "declare const bundle: number; export = bundle;".
Proof.
  split; [| split].
  - rewrite (cjsSubstitute_first_occurrence_only pathExtname "dist/index.js"
               _ "exports.default = bundle;" "module.exports = bundle;");
      [reflexivity | left; repeat split; reflexivity].
  - rewrite (cjsSubstitute_first_occurrence_only pathExtname "dist/index.js"
               _ "exports.default = bundle;" "module.exports = bundle;");
      [reflexivity | left; repeat split; reflexivity].
  - rewrite (cjsSubstitute_first_occurrence_only pathExtname "dist/index.d.ts"
               _ "export default bundle;" "export = bundle;");
      [reflexivity | right; repeat split; reflexivity].
Defined.

(** an artifact that is neither a script nor a declaration is not touched *)
Lemma cjsSubstitute_other_artifact
    (extname : string -> string) (outName content : string) :
  extname outName <> ".js" -> extname outName <> ".ts" ->
  cjsSubstitute extname outName content = content.
Proof.
  intros Hjs Hts. unfold cjsSubstitute.
  apply String.eqb_neq in Hjs, Hts. now rewrite Hjs, Hts.
Qed.

(** C5, amended: the dynamic-require compiler applies its substitutions
    before the hooks: the first hook is handed the substituted text, which
    in a script artifact has the first [exports.default = bundle;] rewritten
    to [module.exports = bundle;] and in a declaration artifact the first
    [export default bundle;] rewritten to [export = bundle;].  The
    static-import compiler substitutes nothing: its hooks are handed the
    emitted text, and without hooks the text is written as emitted. *)
Theorem substitutions_precede_hooks
    (extname : string -> string) (h : OutPutHook) (hs : list OutPutHook)
    (outName content : string) :
  cjsContent extname (Some (h :: hs)) outName content
  = runHooks (Some hs) outName
      (h (cjsSubstitute extname outName content) outName)
  /\ (extname outName = ".js" ->
      cjsSubstitute extname outName content
      = replace "exports.default = bundle;" "module.exports = bundle;" content)
  /\ (extname outName = ".ts" ->
      cjsSubstitute extname outName content
      = replace "export default bundle;" "export = bundle;" content)
  /\ esmContent (Some (h :: hs)) outName content
     = runHooks (Some hs) outName (h content outName)
  /\ esmContent None outName content = content
  /\ esmContent (Some []) outName content = content.
Proof.
  repeat split; try reflexivity.
  - intros He. unfold cjsSubstitute. now rewrite He.
  - intros He. unfold cjsSubstitute. now rewrite He.
Qed.

Lemma substitutions_precede_hooks_witness :
  cjsContent pathExtname (Some [tagHook]) "index.js"
    "exports.default = bundle;"
  = "[hook]module.exports = bundle;"
  /\ esmContent (Some [tagHook]) "index.d.ts" "export = bundle;"
     = "[hook]export = bundle;".
Proof.
  destruct (substitutions_precede_hooks pathExtname tagHook [] "index.js"
              "exports.default = bundle;") as [H1 [H2 _]].
  destruct (substitutions_precede_hooks pathExtname tagHook [] "index.d.ts"
              "export = bundle;") as [_ [_ [_ [H4 _]]]].
  split.
  - rewrite H1, (H2 eq_refl). reflexivity.
  - rewrite H4. reflexivity.
Defined.

(* ================================================================== *)
(** ** The findings of the resolver *)

(** C7, amended: the findings of the resolver never abort [bundle] and never
    change what it returns: with the same file order, a resolver that
    reports circular references and unknown modules gives the very result
    (or the very failure) of one that reports none.  [dependency] does hand
    the findings over, as one message per kind, but [bundle] reads the files
    only, and its result holds the content and the JSX flag, no message. *)
Theorem findings_do_not_reach_bundle
    (CompilerOptions : Type)
    (createSourceFile : string -> string -> Node)
    (printFile : CompilerOptions -> Node -> string)
    (resolvePath : string -> string) (readFile : string -> string)
    (tsconfig : option string -> CompilerOptions)
    (fileExtensionAndFormat : list DepsFile -> Result unit)
    (checkTypes : list DepsFile -> CompilerOptions -> Result unit)
    (checkJSX : list DepsFile -> bool)
    (renamed notRenamed anonymous :
       list DepsFile -> CompilerOptions -> Result (list DepsFile))
    (sorted : list string) (circular : list (string * string))
    (unknown : list string) (entry : string)
    (options : option BundleOptions) :
  let noisy := fun _ : string => Ok (MkDeps sorted circular unknown) in
  let quiet := fun _ : string => Ok (MkDeps sorted [] []) in
  let files :=
    map (fun dep => MkDepsFile (resolvePath dep) (readFile (resolvePath dep)))
        sorted in
  bundle CompilerOptions createSourceFile printFile noisy resolvePath
         readFile tsconfig fileExtensionAndFormat checkTypes checkJSX
         renamed notRenamed anonymous entry options
  = bundle CompilerOptions createSourceFile printFile quiet resolvePath
           readFile tsconfig fileExtensionAndFormat checkTypes checkJSX
           renamed notRenamed anonymous entry options
  /\ dependency noisy resolvePath readFile entry
     = Ok (files,
           ((if Nat.ltb 0 (List.length circular)
             then [join "" (map circularMessage circular)] else [])
            ++ (if Nat.ltb 0 (List.length unknown)
                then [join "" (map unknownMessage unknown)] else []))%list)
  /\ dependency quiet resolvePath readFile entry = Ok (files, []).
Proof.
  intros noisy quiet files. repeat split.
  - unfold dependency, getDependencies, noisy, bind. simpl.
    rewrite !length_map.
    destruct circular, unknown; reflexivity.
Qed.

(* ================================================================== *)
(** ** The maps of the merger and the records it emits *)

Lemma In_insert_sorted (x y : string) (l : list string) :
  In x (insert_sorted y l) <-> x = y \/ In x l.
Proof.
  induction l as [|z l IH]; simpl.
  - intuition.
  - destruct (String.leb y z); simpl; [intuition |]. rewrite IH. intuition.
Qed.

Lemma In_sort (x : string) (l : list string) : In x (sort l) <-> In x l.
Proof.
  induction l as [|y l IH]; simpl; [tauto |].
  rewrite In_insert_sorted, IH. intuition.
Qed.

Lemma NoDup_insert_sorted (y : string) (l : list string) :
  NoDup l -> ~ In y l -> NoDup (insert_sorted y l).
Proof.
  induction l as [|z l IH]; simpl; intros Hl Hy.
  - constructor; [tauto | constructor].
  - destruct (String.leb y z).
    + constructor; [simpl; tauto | exact Hl].
    + inversion Hl as [|? ? Hz Hl']; subst.
      constructor; [| apply IH; tauto].
      rewrite In_insert_sorted. intros [-> | H]; tauto.
Qed.

Lemma NoDup_sort (l : list string) : NoDup l -> NoDup (sort l).
Proof.
  induction 1 as [|y l Hy Hl IH]; simpl; [constructor |].
  apply NoDup_insert_sorted; [exact IH | now rewrite In_sort].
Qed.

Lemma set_has_In (x : string) (s : JsSet) : set_has x s = true <-> In x s.
Proof.
  unfold set_has. rewrite existsb_exists. split.
  - intros [y [Hy E]]. apply String.eqb_eq in E. now subst.
  - intros H. exists x. split; [exact H | apply String.eqb_refl].
Qed.

Lemma In_set_add (x y : string) (s : JsSet) :
  In y (set_add x s) <-> y = x \/ In y s.
Proof.
  unfold set_add. destruct (set_has x s) eqn:E.
  - apply set_has_In in E. split; [tauto | intros [-> | H]; assumption].
  - rewrite in_app_iff. simpl. intuition.
Qed.

Lemma NoDup_set_add (x : string) (s : JsSet) :
  NoDup s -> NoDup (set_add x s).
Proof.
  intros H. unfold set_add. destruct (set_has x s) eqn:E; [exact H |].
  assert (Hx : ~ In x s).
  { intros Hin. apply set_has_In in Hin. congruence. }
  clear E. induction H as [|z s Hz Hs IH]; simpl.
  - constructor; [tauto | constructor].
  - constructor.
    + rewrite in_app_iff. simpl. simpl in Hx. intuition.
    + apply IH. simpl in Hx. tauto.
Qed.

Lemma In_finalNames (n : string) (typeNames regular : JsSet) :
  In n (finalNames regular typeNames) <-> In n regular \/ In n typeNames.
Proof.
  unfold finalNames.
  assert (G : forall acc,
             (forall x, In x regular -> In x acc) ->
             (In n (fold_left
                      (fun acc typeName =>
                         if set_has typeName regular then acc
                         else set_add typeName acc) typeNames acc)
              <-> In n acc \/ In n typeNames)).
  { induction typeNames as [|t ts IH]; intros acc Hacc; simpl; [tauto |].
    destruct (set_has t regular) eqn:E.
    - rewrite IH by assumption. apply set_has_In in E.
      split; [tauto |]. intros [H | [<- | H]]; auto.
    - rewrite IH.
      + rewrite In_set_add. intuition.
      + intros x Hx. rewrite In_set_add. auto. }
  apply G. auto.
Qed.

Lemma NoDup_finalNames (typeNames regular : JsSet) :
  NoDup regular -> NoDup (finalNames regular typeNames).
Proof.
  unfold finalNames. generalize regular at 1 3 as acc.
  induction typeNames as [|t ts IH]; intros acc H; simpl; [exact H |].
  destruct (set_has t regular); apply IH; [exact H |].
  now apply NoDup_set_add.
Qed.

Lemma map_get_In (k : string) (m : JsMap) (v : JsSet) :
  map_get k m = Some v -> In (k, v) m.
Proof.
  induction m as [|[k' v'] m IH]; simpl; [discriminate |].
  destruct (String.eqb_spec k k') as [-> | Hk].
  - intros [= ->]. now left.
  - intros H. right. now apply IH.
Qed.

Lemma map_has_keys (k : string) (m : JsMap) :
  map_has k m = true <-> In k (map fst m).
Proof.
  unfold map_has. induction m as [|[k' v'] m IH]; simpl.
  - split; [discriminate | tauto].
  - destruct (String.eqb_spec k k') as [-> | Hk].
    + split; auto.
    + rewrite IH. split; [auto | intros [E | H]; [congruence | exact H]].
Qed.

Lemma map_get_has (k : string) (m : JsMap) :
  map_has k m = true -> exists v, map_get k m = Some v.
Proof.
  unfold map_has. destruct (map_get k m) as [v|]; [now exists v | discriminate].
Qed.

Lemma map_set_absent (k : string) (v : JsSet) (m : JsMap) :
  map_has k m = false -> map_set k v m = (m ++ [(k, v)])%list.
Proof.
  unfold map_has. induction m as [|[k' v'] m IH]; simpl; [reflexivity |].
  destruct (String.eqb k k'); [discriminate |].
  intros H. now rewrite IH.
Qed.

Lemma wfMap_ensure (k : string) (m : JsMap) :
  wfMap m -> wfMap (map_ensure k m).
Proof.
  intros [Hk Hs]. unfold map_ensure.
  destruct (map_has k m) eqn:E; [now split |].
  rewrite map_set_absent by exact E. split.
  - rewrite map_app. simpl. apply NoDup_app.
    + exact Hk.
    + constructor; [simpl; tauto | constructor].
    + intros a Ha [<- | []].
      apply map_has_keys in Ha. congruence.
  - apply Forall_app. split; [exact Hs |].
    constructor; [constructor | constructor].
Qed.

Lemma map_add_keys (k x : string) (m : JsMap) :
  map fst (map_add k x m) = map fst m.
Proof.
  induction m as [|[k' v'] m IH]; simpl; [reflexivity |].
  destruct (String.eqb k k'); simpl; [reflexivity | now rewrite IH].
Qed.

Lemma wfMap_add (k x : string) (m : JsMap) :
  wfMap m -> wfMap (map_add k x m).
Proof.
  intros [Hk Hs]. split; [now rewrite map_add_keys |].
  clear Hk. induction Hs as [|[k' v'] m Hv Hs IH]; simpl; [constructor |].
  destruct (String.eqb k k'); constructor; simpl in *; auto.
  now apply NoDup_set_add.
Qed.

Lemma getMap_setMap (t t' : Target) (m : JsMap) (ms : Maps) :
  getMap t' (setMap t m ms) = if Target_eqb t t' then m else getMap t' ms.
Proof. destruct t, t'; reflexivity. Qed.

Lemma wfMaps_setMap (t : Target) (m : JsMap) (ms : Maps) :
  wfMaps ms -> wfMap m -> wfMaps (setMap t m ms).
Proof.
  intros H Hm t'. rewrite getMap_setMap.
  destruct (Target_eqb t t'); [exact Hm | apply H].
Qed.

Lemma wfMaps_ensure (t : Target) (k : string) (ms : Maps) :
  wfMaps ms -> wfMaps (ensure t k ms).
Proof.
  intros H. apply wfMaps_setMap; [exact H | apply wfMap_ensure, H].
Qed.

Lemma wfMaps_addName (t : Target) (k x : string) (ms : Maps) :
  wfMaps ms -> wfMaps (addName t k x ms).
Proof.
  intros H. apply wfMaps_setMap; [exact H | apply wfMap_add, H].
Qed.

Lemma wfMaps_addNames (t : Target) (k : string) (xs : list string) :
  forall ms, wfMaps ms ->
    wfMaps (fold_left (fun acc name => addName t k name acc) xs ms).
Proof.
  induction xs as [|x xs IH]; intros ms H; simpl; [exact H |].
  apply IH. now apply wfMaps_addName.
Qed.

Lemma wfMaps_parseImport (ms : Maps) (s : string) :
  wfMaps ms -> wfMaps (parseImport ms s).
Proof.
  intros H. unfold parseImport.
  destruct (importMatch s) as [[clause m]|]; [| exact H].
  destruct (match clause with
            | Some c => (c =? "")%string
            | None => true
            end).
  - destruct (defaultMatch s); [| exact H].
    now apply wfMaps_addName, wfMaps_ensure.
  - destruct (startsWith "{" _).
    + now apply wfMaps_addNames, wfMaps_ensure.
    + destruct (startsWith "* as" _).
      * destruct (namespaceMatch _); [| exact H].
        now apply wfMaps_addName, wfMaps_ensure.
      * now apply wfMaps_addName, wfMaps_ensure.
Qed.

Lemma wfMaps_empty : wfMaps emptyMaps.
Proof. intros t. destruct t; split; constructor. Qed.

Lemma wfMaps_parseImports (imports : list string) :
  wfMaps (parseImports imports).
Proof.
  unfold parseImports. generalize wfMaps_empty. generalize emptyMaps.
  induction imports as [|s l IH]; intros ms H; simpl; [exact H |].
  apply IH. now apply wfMaps_parseImport.
Qed.

Lemma flat_map_map (A B C : Type) (f : A -> list C) (g : B -> C)
    (h : A -> list B) (l : list A) :
  (forall e, f e = map g (h e)) -> flat_map f l = map g (flat_map h l).
Proof.
  intros H. induction l as [|e l IH]; simpl; [reflexivity |].
  now rewrite map_app, H, IH.
Qed.

(** the text the source returns is the sorted rendering of the records *)
Lemma mergedImports_render (ms : Maps) :
  mergedImports ms = map render (emitted ms).
Proof.
  unfold mergedImports, emitted. rewrite !map_app.
  repeat f_equal; apply flat_map_map; intros [m names];
    unfold valueRecord, typeRecord, namespaceRecord; simpl;
    match goal with |- context [if ?b then _ else _] => destruct b end;
    reflexivity.
Qed.

(** a loop that emits at most one record per entry, under the module path of
    the entry, emits no module path twice *)
Section OnePerEntry.

Variable g : string * JsSet -> list ImportRecord.
Variable F : Form.
Variable Q : string -> Prop.
Hypothesis g_one :
  forall e, g e = [] \/
            exists r, g e = [r] /\ recordKey r = (F, fst e) /\ Q (fst e).

Lemma keys_of_loop (m : JsMap) (x : Form * string) :
  In x (map recordKey (flat_map g m)) ->
  exists k, x = (F, k) /\ In k (map fst m) /\ Q k.
Proof.
  induction m as [|e m IH]; simpl; [tauto |].
  rewrite map_app, in_app_iff. intros [H | H].
  - destruct (g_one e) as [E | [r [E [Hk HQ]]]]; rewrite E in H; simpl in H;
      [tauto |].
    destruct H as [<- | []]. exists (fst e). rewrite Hk. auto.
  - destruct (IH H) as [k [E [Hin HQ]]]. exists k. auto.
Qed.

Lemma NoDup_keys_of_loop (m : JsMap) :
  NoDup (map fst m) -> NoDup (map recordKey (flat_map g m)).
Proof.
  induction m as [|e m IH]; simpl; intros H; [constructor |].
  inversion H as [|? ? Hn Hm]; subst. rewrite map_app.
  apply NoDup_app; [| now apply IH |].
  - destruct (g_one e) as [E | [r [E _]]]; rewrite E; simpl;
      [constructor | constructor; [simpl; tauto | constructor]].
  - intros x Hx Hx'.
    destruct (g_one e) as [E | [r [E [Hk _]]]]; rewrite E in Hx; simpl in Hx;
      [tauto |].
    destruct Hx as [<- | []].
    destruct (keys_of_loop m _ Hx') as [k [Ek [Hin _]]].
    rewrite Hk in Ek. injection Ek as <-. contradiction.
Qed.

End OnePerEntry.

Lemma valueRecord_one (k : Kind) (order : JsSet -> list string)
    (typeMap : JsMap) (e : string * JsSet) :
  valueRecord k order typeMap e = [] \/
  exists r, valueRecord k order typeMap e = [r]
            /\ recordKey r = (formOf k, fst e) /\ True.
Proof.
  unfold valueRecord. destruct (Nat.ltb _ _); [right | now left].
  eexists. split; [reflexivity | now split].
Qed.

Lemma typeRecord_one (k : Kind) (order : JsSet -> list string)
    (valueMap : JsMap) (e : string * JsSet) :
  typeRecord k order valueMap e = [] \/
  exists r, typeRecord k order valueMap e = [r]
            /\ recordKey r = (formOf k, fst e)
            /\ ~ In (fst e) (map fst valueMap).
Proof.
  unfold typeRecord. destruct (map_has (fst e) valueMap) eqn:E; simpl;
    [now left |].
  destruct (Nat.ltb _ _); [right | now left].
  eexists. split; [reflexivity |]. split; [reflexivity |].
  intros H. apply map_has_keys in H. congruence.
Qed.

Lemma namespaceRecord_one (e : string * JsSet) :
  namespaceRecord e = [] \/
  exists r, namespaceRecord e = [r]
            /\ recordKey r = (NamespaceForm, fst e) /\ True.
Proof.
  unfold namespaceRecord. destruct (Nat.ltb _ _); [right | now left].
  eexists. split; [reflexivity | now split].
Qed.

Lemma keys_of_valueRecords (k : Kind) (order : JsSet -> list string)
    (typeMap m : JsMap) (x : Form * string) :
  In x (map recordKey (flat_map (valueRecord k order typeMap) m)) ->
  exists p, x = (formOf k, p) /\ In p (map fst m).
Proof.
  intros H.
  destruct (keys_of_loop _ _ (fun _ => True)
              (valueRecord_one k order typeMap) _ _ H)
    as [p [E [Hp _]]].
  now exists p.
Qed.

Lemma keys_of_typeRecords (k : Kind) (order : JsSet -> list string)
    (valueMap m : JsMap) (x : Form * string) :
  In x (map recordKey (flat_map (typeRecord k order valueMap) m)) ->
  exists p, x = (formOf k, p) /\ ~ In p (map fst valueMap).
Proof.
  intros H.
  destruct (keys_of_loop _ _ (fun p => ~ In p (map fst valueMap))
              (typeRecord_one k order valueMap) _ _ H)
    as [p [E [_ Hp]]].
  now exists p.
Qed.

Lemma keys_of_namespaceRecords (m : JsMap) (x : Form * string) :
  In x (map recordKey (flat_map namespaceRecord m)) ->
  exists p, x = (NamespaceForm, p).
Proof.
  intros H.
  destruct (keys_of_loop _ _ (fun _ => True) namespaceRecord_one _ _ H)
    as [p [E _]].
  now exists p.
Qed.

(** per module path, at most one record of each form is emitted *)
Lemma NoDup_emitted_keys (ms : Maps) :
  wfMaps ms -> NoDup (map recordKey (emitted ms)).
Proof.
  intros H. unfold emitted. rewrite !map_app.
  pose proof (proj1 (H TImport)) as H1. pose proof (proj1 (H TTypeImport)) as H2.
  pose proof (proj1 (H TDefault)) as H3.
  pose proof (proj1 (H TTypeDefault)) as H4.
  pose proof (proj1 (H TNamespace)) as H5. simpl in H1, H2, H3, H4, H5.
  repeat apply NoDup_app;
    try (first
           [ apply (NoDup_keys_of_loop _ _ (fun _ => True)
                      (valueRecord_one _ _ _))
           | match goal with
             | |- NoDup (map recordKey
                           (flat_map (typeRecord ?k ?o ?vm) _)) =>
                 apply (NoDup_keys_of_loop _ _
                          (fun p => ~ In p (map fst vm))
                          (typeRecord_one k o vm))
             end
           | apply (NoDup_keys_of_loop _ _ (fun _ => True)
                      namespaceRecord_one) ];
         assumption);
    intros x Hx Hx';
    repeat match goal with
    | H : In _ (_ ++ _)%list |- _ =>
        apply in_app_iff in H; destruct H as [H | H]
    | H : In _ (map recordKey (flat_map (valueRecord _ _ _) _)) |- _ =>
        apply keys_of_valueRecords in H; destruct H as [? [? ?]]
    | H : In _ (map recordKey (flat_map (typeRecord _ _ _) _)) |- _ =>
        apply keys_of_typeRecords in H; destruct H as [? [? ?]]
    | H : In _ (map recordKey (flat_map namespaceRecord _)) |- _ =>
        apply keys_of_namespaceRecords in H; destruct H as [? ?]
    end;
    subst; simpl in *;
    try discriminate;
    match goal with
    | E : (_, _) = (_, _) |- _ => injection E as <-; contradiction
    end.
Qed.

Lemma nonempty_length (A : Type) (x : A) (l : list A) :
  In x l -> Nat.ltb 0 (List.length l) = true.
Proof. destruct l; simpl; [tauto | reflexivity]. Qed.

(** a name recorded for a module path is a binding of the record of its
    form for that module path *)
Lemma recorded_name_emitted (ms : Maps) (t : Target) (m : string)
    (names : JsSet) (n : string) :
  map_get m (getMap t ms) = Some names -> In n names ->
  exists r, In r (emitted ms) /\ modulePath r = m /\ In n (bindings r)
            /\ formOf (kind r) = formOfTarget t.
Proof.
  intros Hget Hn. pose proof (map_get_In _ _ _ Hget) as Hin.
  assert (V : forall k order typeMap valueMap regular,
             In (m, regular) valueMap ->
             In n (finalNames regular (orEmpty (map_get m typeMap))) ->
             (forall l x, In x l -> In x (order l)) ->
             exists r, In r (flat_map (valueRecord k order typeMap) valueMap)
                       /\ modulePath r = m /\ In n (bindings r)
                       /\ kind r = k).
  { intros k order typeMap valueMap regular Hreg Hfin Hord.
    exists (MkImportRecord k m
              (order (finalNames regular (orEmpty (map_get m typeMap))))).
    split; [| simpl; auto].
    apply in_flat_map. exists (m, regular). split; [exact Hreg |].
    unfold valueRecord. simpl. rewrite (nonempty_length _ _ _ Hfin).
    now left. }
  assert (T : forall k order valueMap typeMap,
             In (m, names) typeMap -> map_has m valueMap = false ->
             (forall l x, In x l -> In x (order l)) ->
             exists r, In r (flat_map (typeRecord k order valueMap) typeMap)
                       /\ modulePath r = m /\ In n (bindings r)
                       /\ kind r = k).
  { intros k order valueMap typeMap Hty Hno Hord.
    exists (MkImportRecord k m (order names)).
    split; [| simpl; auto].
    apply in_flat_map. exists (m, names). split; [exact Hty |].
    unfold typeRecord. simpl. rewrite Hno, (nonempty_length _ _ _ Hn).
    now left. }
  assert (Osort : forall l x, In x l -> In x (sort l))
    by (intros l x; apply In_sort).
  assert (Oid : forall (l : JsSet) x, In x l -> In x ((fun y => y) l))
    by auto.
  unfold emitted. destruct t; simpl in Hget, Hin.
  - destruct (V NamedValue sort (typeImportMap ms) _ _ Hin) as [r [Hr [? [? E]]]];
      [apply In_finalNames; now left | exact Osort |].
    exists r. rewrite !in_app_iff, E. auto.
  - destruct (map_has m (importMap ms)) eqn:Hv.
    + destruct (map_get_has _ _ Hv) as [regular Hreg].
      destruct (V NamedValue sort (typeImportMap ms) _ _
                  (map_get_In _ _ _ Hreg)) as [r [Hr [? [? E]]]];
        [apply In_finalNames; rewrite Hget; now right | exact Osort |].
      exists r. rewrite !in_app_iff, E. auto.
    + destruct (T NamedType sort _ _ Hin Hv Osort) as [r [Hr [? [? E]]]].
      exists r. rewrite !in_app_iff, E. auto.
  - destruct (V DefaultValue (fun y => y) (typeDefaultImports ms) _ _ Hin)
      as [r [Hr [? [? E]]]];
      [apply In_finalNames; now left | exact Oid |].
    exists r. rewrite !in_app_iff, E. auto 6.
  - destruct (map_has m (defaultImports ms)) eqn:Hv.
    + destruct (map_get_has _ _ Hv) as [regular Hreg].
      destruct (V DefaultValue (fun y => y) (typeDefaultImports ms) _ _
                  (map_get_In _ _ _ Hreg)) as [r [Hr [? [? E]]]];
        [apply In_finalNames; rewrite Hget; now right | exact Oid |].
      exists r. rewrite !in_app_iff, E. auto 6.
    + destruct (T DefaultType (fun y => y) _ _ Hin Hv Oid)
        as [r [Hr [? [? E]]]].
      exists r. rewrite !in_app_iff, E. auto 7.
  - exists (MkImportRecord Namespace m names). rewrite !in_app_iff.
    split; [| simpl; auto].
    do 4 right. apply in_flat_map. exists (m, names). split; [exact Hin |].
    unfold namespaceRecord. simpl. rewrite (nonempty_length _ _ _ Hn).
    now left.
Qed.

(** every record lists a name once *)
Lemma NoDup_emitted_bindings (ms : Maps) (r : ImportRecord) :
  wfMaps ms -> In r (emitted ms) -> NoDup (bindings r).
Proof.
  intros H Hr. unfold emitted in Hr.
  assert (S : forall t e, In e (getMap t ms) -> NoDup (snd e)).
  { intros t e He. destruct (H t) as [_ F].
    rewrite Forall_forall in F. now apply F. }
  rewrite !in_app_iff in Hr.
  destruct Hr as [Hr | [Hr | [Hr | [Hr | Hr]]]];
    apply in_flat_map in Hr; destruct Hr as [e [He Hr]];
    unfold valueRecord, typeRecord, namespaceRecord in Hr;
    match type of Hr with
    | In _ (if ?b then _ else _) => destruct b; [| contradiction]
    end;
    destruct Hr as [<- | []]; simpl.
  - apply NoDup_sort, NoDup_finalNames, (S TImport e He).
  - apply NoDup_sort, (S TTypeImport e He).
  - apply NoDup_finalNames, (S TDefault e He).
  - apply (S TTypeDefault e He).
  - apply (S TNamespace e He).
Qed.

Lemma prefix_nil (s : string) : prefix "" s = true.
Proof. now destruct s. Qed.

Lemma prefix_app_l (p : string) :
  forall s t, prefix p s = true -> prefix p (s ++ t) = true.
Proof.
  induction p as [|a p IH]; intros s t H; [apply prefix_nil |].
  destruct s as [|b s]; simpl in *; [discriminate |].
  destruct (ascii_dec a b); [now apply IH | discriminate].
Qed.

Lemma prefix_self_app (p t : string) : prefix p (p ++ t) = true.
Proof.
  induction p as [|a p IH]; [apply prefix_nil |].
  simpl. destruct (ascii_dec a a); [exact IH | congruence].
Qed.

Lemma includes_cons (p : string) (a : ascii) (s : string) :
  includes p (String a s) = prefix p (String a s) || includes p s.
Proof. reflexivity. Qed.

Lemma includes_app_r (p s t : string) :
  includes p t = true -> includes p (s ++ t) = true.
Proof.
  intros H. induction s as [|a s IH]; [exact H |].
  change (String a s ++ t) with (String a (s ++ t)).
  rewrite includes_cons, IH. apply orb_true_r.
Qed.

Lemma includes_app_l (p s t : string) :
  includes p s = true -> includes p (s ++ t) = true.
Proof.
  induction s as [|a s IH]; intros H.
  - simpl in H. rewrite orb_false_r in H.
    destruct p as [|b p]; [| simpl in H; discriminate].
    destruct t; simpl; now rewrite ?prefix_nil.
  - change (String a s ++ t) with (String a (s ++ t)).
    rewrite includes_cons in *. apply orb_true_iff in H.
    destruct H as [H | H].
    + change (String a (s ++ t)) with (String a s ++ t).
      now rewrite (prefix_app_l _ _ t H).
    + rewrite (IH H). apply orb_true_r.
Qed.

Lemma includes_self (p : string) : includes p p = true.
Proof.
  destruct p as [|a p]; [reflexivity |].
  rewrite includes_cons.
  rewrite <- (append_nil_r (String a p)) at 2.
  now rewrite prefix_self_app.
Qed.

(** a member occurs in the joined text *)
Lemma includes_join (sep n : string) (l : list string) :
  In n l -> includes n (join sep l) = true.
Proof.
  unfold join. induction l as [|x l IH]; simpl; [tauto |].
  intros [-> | H].
  - destruct l; [apply includes_self |].
    apply includes_app_l, includes_self.
  - destruct l as [|y l]; [destruct H |].
    apply includes_app_r, includes_app_r, IH, H.
Qed.

Lemma includes_render (r : ImportRecord) (n : string) :
  In n (bindings r) -> includes n (render r) = true.
Proof.
  intros H. apply (includes_join ", ") in H. unfold render.
  destruct (kind r);
    first [ apply (includes_app_r _ "import { "), includes_app_l, H
          | apply (includes_app_r _ "import type { "), includes_app_l, H
          | apply (includes_app_r _ "import "), includes_app_l, H
          | apply (includes_app_r _ "import type "), includes_app_l, H
          | apply (includes_app_r _ "import * as "), includes_app_l, H ].
Qed.

(** On the records of the parsing loop: every name the loop has recorded is
    a binding of a record emitted for its module path, and occurs in the
    text of that record in the output.  The output is the sorted rendering
    of the emitted records; a form (named, default, namespace) and a module
    path have at most one record between them, in the value kind, or in the
    type-only kind when the module path has no value entry of that form; a
    record lists a name once. *)
Theorem mergeImports_emits_recorded_names (imports : list string) :
  let ms := parseImports imports in
  mergeImports imports = sort (map render (emitted ms))
  /\ (forall t m names n,
        map_get m (getMap t ms) = Some names -> In n names ->
        exists r, In r (emitted ms) /\ modulePath r = m
                  /\ formOf (kind r) = formOfTarget t
                  /\ In n (bindings r)
                  /\ In (render r) (mergeImports imports)
                  /\ includes n (render r) = true)
  /\ NoDup (map recordKey (emitted ms))
  /\ (forall r, In r (emitted ms) -> NoDup (bindings r))
  /\ (forall s acc, importMatch s = None -> parseImport acc s = acc).
Proof.
  intros ms.
  assert (E : mergeImports imports = sort (map render (emitted ms))).
  { unfold mergeImports. now rewrite mergedImports_render. }
  pose proof (wfMaps_parseImports imports) as W. fold ms in W.
  split; [exact E |]. split; [| split; [| split]].
  - intros t m names n Hget Hn.
    destruct (recorded_name_emitted ms t m names n Hget Hn)
      as [r [Hr [Hm [Hb Hf]]]].
    exists r. repeat split; try assumption.
    + rewrite E. apply In_sort, in_map, Hr.
    + now apply includes_render.
  - now apply NoDup_emitted_keys.
  - intros r Hr. now apply NoDup_emitted_bindings with ms.
  - intros s acc H. now apply parseImport_no_match.
Qed.

Lemma mergeImports_emits_recorded_names_witness :
  exists r,
    In r (emitted (parseImports
                     [ "import { readFile } from 'fs';";
                       "import type { Stats, readFile } from 'fs';" ]))
    /\ modulePath r = "fs" /\ formOf (kind r) = NamedForm
    /\ In "Stats" (bindings r)
    /\ In (render r)
          (mergeImports [ "import { readFile } from 'fs';";
                          "import type { Stats, readFile } from 'fs';" ])
    /\ includes "Stats" (render r) = true.
Proof.
  destruct (mergeImports_emits_recorded_names
              [ "import { readFile } from 'fs';";
                "import type { Stats, readFile } from 'fs';" ])
    as [_ [H _]].
  apply (H TTypeImport "fs" ["Stats"; "readFile"] "Stats").
  - vm_compute. reflexivity.
  - simpl. auto.
Defined.

(** Where a module path has a value entry of a form, the record of that form
    is the value record: the emitting loops never put a type-only statement
    next to a value statement of the same form and module path. *)
Lemma value_kind_prevails (ms : Maps) (r : ImportRecord) :
  In r (emitted ms) ->
  (map_has (modulePath r) (importMap ms) = true ->
   formOf (kind r) = NamedForm -> kind r = NamedValue)
  /\ (map_has (modulePath r) (defaultImports ms) = true ->
      formOf (kind r) = DefaultForm -> kind r = DefaultValue).
Proof.
  intros Hr. unfold emitted in Hr. rewrite !in_app_iff in Hr.
  destruct Hr as [Hr | [Hr | [Hr | [Hr | Hr]]]];
    apply in_flat_map in Hr; destruct Hr as [e [He Hr]];
    unfold valueRecord, typeRecord, namespaceRecord in Hr.
  - destruct (Nat.ltb _ _); [| contradiction].
    destruct Hr as [<- | []]. split; [reflexivity | discriminate].
  - destruct (map_has (fst e) (importMap ms)) eqn:E; [contradiction |].
    simpl in Hr. destruct (Nat.ltb _ _); [| contradiction].
    destruct Hr as [<- | []]. simpl. split; [congruence | discriminate].
  - destruct (Nat.ltb _ _); [| contradiction].
    destruct Hr as [<- | []]. split; [discriminate | reflexivity].
  - destruct (map_has (fst e) (defaultImports ms)) eqn:E; [contradiction |].
    simpl in Hr. destruct (Nat.ltb _ _); [| contradiction].
    destruct Hr as [<- | []]. simpl. split; [discriminate | congruence].
  - destruct (Nat.ltb _ _); [| contradiction].
    destruct Hr as [<- | []]. split; discriminate.
Qed.

(** On the records of the parsing loop: when the loop has recorded a name
    for a module path both as a value import and as a type-only import of
    the same form (both named, or both default), the output lists the name
    in the value statement of that form for the module path, and no
    type-only statement of that form is emitted for the module path.  A
    type-only import of the other form is a separate statement and is
    kept. *)
Theorem value_binding_prevails (imports : list string) (m n : string)
    (value typeOnly : Target) (valueKind typeKind : Kind) :
  (value = TImport /\ typeOnly = TTypeImport
   /\ valueKind = NamedValue /\ typeKind = NamedType)
  \/ (value = TDefault /\ typeOnly = TTypeDefault
      /\ valueKind = DefaultValue /\ typeKind = DefaultType) ->
  let ms := parseImports imports in
  (exists names, map_get m (getMap value ms) = Some names /\ In n names) ->
  (exists names, map_get m (getMap typeOnly ms) = Some names /\ In n names) ->
  (exists r, In r (emitted ms) /\ kind r = valueKind /\ modulePath r = m
             /\ In n (bindings r)
             /\ In (render r) (mergeImports imports)
             /\ includes n (render r) = true)
  /\ (forall r, In r (emitted ms) -> modulePath r = m -> kind r <> typeKind).
Proof.
  intros Hform ms [names [Hget Hn]] _.
  assert (E : mergeImports imports = sort (map render (emitted ms))).
  { unfold mergeImports. now rewrite mergedImports_render. }
  assert (Hhas : map_has m (getMap value ms) = true).
  { unfold map_has. now rewrite Hget. }
  destruct (recorded_name_emitted ms value m names n Hget Hn)
    as [r [Hr [Hm [Hb Hf]]]].
  split.
  - exists r. repeat split; try assumption.
    + destruct (value_kind_prevails ms r Hr) as [Hnamed Hdefault].
      rewrite Hm in Hnamed, Hdefault.
      destruct Hform as [[-> [_ [-> _]]] | [-> [_ [-> _]]]];
        [now apply Hnamed | now apply Hdefault].
    + rewrite E. apply In_sort, in_map, Hr.
    + now apply includes_render.
  - intros r' Hr' Hm' Hk.
    destruct (value_kind_prevails ms r' Hr') as [Hnamed Hdefault].
    rewrite Hm' in Hnamed, Hdefault.
    destruct Hform as [[-> [_ [_ ->]]] | [-> [_ [_ ->]]]].
    + rewrite Hnamed in Hk; [discriminate | exact Hhas | now rewrite Hk].
    + rewrite Hdefault in Hk; [discriminate | exact Hhas | now rewrite Hk].
Qed.

Lemma value_binding_prevails_witness :
  let imports := [ "import { readFile } from 'fs';";
                   "import type { Stats, readFile } from 'fs';";
                   "import ts from 'typescript';";
                   "import type ts from 'typescript';" ] in
  mergeImports imports
  = [ "import ts from " ++ dquoted "typescript" ++ ";";
      "import { Stats, readFile } from " ++ dquoted "fs" ++ ";" ]
  /\ (forall r, In r (emitted (parseImports imports)) ->
                modulePath r = "fs" -> kind r <> NamedType)
  /\ (forall r, In r (emitted (parseImports imports)) ->
                modulePath r = "typescript" -> kind r <> DefaultType).
Proof.
  intros imports. split; [vm_compute; reflexivity |]. split.
  - apply (value_binding_prevails imports "fs" "readFile"
             TImport TTypeImport NamedValue NamedType).
    + left. repeat split.
    + exists ["readFile"]. split; [vm_compute; reflexivity | simpl; auto].
    + exists ["Stats"; "readFile"].
      split; [vm_compute; reflexivity | simpl; auto].
  - apply (value_binding_prevails imports "typescript" "ts"
             TDefault TTypeDefault DefaultValue DefaultType).
    + right. repeat split.
    + exists ["ts"]. split; [vm_compute; reflexivity | simpl; auto].
    + exists ["ts"]. split; [vm_compute; reflexivity | simpl; auto].
Defined.

(* ================================================================== *)
(** ** The export visitor on syntax trees *)

(** induction on trees, with the hypothesis on every child *)
Lemma Node_forall_ind (P : Node -> Prop) :
  (forall cs, Forall P cs -> P (SourceFile cs)) ->
  (forall k mods text cs, Forall P cs -> P (Declaration k mods text cs)) ->
  (forall text, P (ExportDeclaration text)) ->
  (forall e, P e -> P (ExportAssignment e)) ->
  (forall text, P (ImportDeclaration text)) ->
  (forall text, P (ImportEqualsDeclaration text)) ->
  (forall name, P (Identifier name)) ->
  P EmptyStatement ->
  (forall text cs, Forall P cs -> P (OtherNode text cs)) ->
  forall n, P n.
Proof.
  intros HS HD HX HA HI HQ HN HE HO.
  fix IH 1. intros n.
  assert (All : forall cs, Forall P cs).
  { fix IHs 1. intros [|c cs]; constructor; [apply IH | apply IHs]. }
  destruct n.
  - apply HS, All.
  - apply HD, All.
  - apply HX.
  - apply HA, IH.
  - apply HI.
  - apply HQ.
  - apply HN.
  - apply HE.
  - apply HO, All.
Qed.

Lemma map_fixed (f : Node -> Node) (cs : list Node) :
  Forall (fun c => exportFree c = true -> f c = c) cs ->
  forallb exportFree cs = true -> map f cs = cs.
Proof.
  induction 1 as [|c cs Hc _ IH]; simpl; [reflexivity |].
  intros H. apply andb_true_iff in H. destruct H as [H1 H2].
  now rewrite Hc, IH.
Qed.

(** the visitor changes nothing in a tree without export markers *)
Lemma exportFree_fixed (n : Node) : exportFree n = true -> exportVisitor n = n.
Proof.
  induction n as [cs IH | k mods text cs IH | text | e IH | text | text
                 | name | | text cs IH] using Node_forall_ind;
    simpl; intros H; try reflexivity; try discriminate.
  - now rewrite (map_fixed exportVisitor cs IH H).
  - apply andb_true_iff in H. destruct H as [H1 H2].
    apply negb_true_iff in H1. unfold stripsMarker in H1. rewrite H1.
    now rewrite (map_fixed exportVisitor cs IH H2).
  - destruct e; try discriminate; now rewrite IH.
  - now rewrite (map_fixed exportVisitor cs IH H).
Qed.

Lemma filter_kept_twice (ms : list Modifier) :
  filter keptModifier (filter keptModifier ms) = filter keptModifier ms.
Proof.
  induction ms as [|m ms IH]; simpl; [reflexivity |].
  destruct (keptModifier m) eqn:E; simpl; [rewrite E, IH |]; auto.
Qed.

Lemma stripsMarker_once (mods : option (list Modifier)) :
  stripsMarker (option_map (filter keptModifier) mods) = false.
Proof.
  destruct mods as [ms|]; [| reflexivity].
  unfold stripsMarker. simpl. rewrite filter_kept_twice.
  now rewrite Nat.eqb_refl.
Qed.

Lemma map_twice (f : Node -> Node) (cs : list Node) :
  Forall (fun c => wellNested c = true -> f (f c) = f c) cs ->
  forallb wellNested cs = true -> map f (map f cs) = map f cs.
Proof.
  induction 1 as [|c cs Hc _ IH]; simpl; [reflexivity |].
  intros H. apply andb_true_iff in H. destruct H as [H1 H2].
  now rewrite Hc, IH.
Qed.

Lemma exportFree_all_fixed (cs : list Node) :
  forallb exportFree cs = true -> map exportVisitor cs = cs.
Proof.
  intros H. apply map_fixed; [| exact H].
  apply Forall_forall. intros c _. apply exportFree_fixed.
Qed.

(** On trees, a second visit changes nothing when the markers are nested as
    the grammar checks demand. *)
Lemma exportVisitor_twice (n : Node) :
  wellNested n = true -> exportVisitor (exportVisitor n) = exportVisitor n.
Proof.
  induction n as [cs IH | k mods text cs IH | text | e IH | text | text
                 | name | | text cs IH] using Node_forall_ind;
    simpl; intros H; try reflexivity.
  - now rewrite (map_twice exportVisitor cs IH H).
  - fold (stripsMarker mods) in *.
    destruct (stripsMarker mods) eqn:E; simpl.
    + fold (stripsMarker (option_map (filter keptModifier) mods)).
      rewrite stripsMarker_once.
      now rewrite (exportFree_all_fixed cs H).
    + fold (stripsMarker mods). rewrite E.
      now rewrite (map_twice exportVisitor cs IH H).
  - destruct e; simpl in *; try reflexivity;
      try (specialize (IH H); simpl in IH; now rewrite ?IH).
    + fold (stripsMarker modifiers) in *.
      destruct (stripsMarker modifiers); simpl; specialize (IH H);
        simpl in IH; now rewrite IH.
    + destruct e; simpl in *; try reflexivity.
      all: specialize (IH H); simpl in IH; now rewrite ?IH.
  - now rewrite (map_twice exportVisitor cs IH H).
Qed.

(** Without that nesting it does: the first visit takes the marker of the
    outer declaration and does not enter it, the second one enters it. *)
Lemma exportVisitor_twice_differs :
  wellNested exportInExport = false
  /\ exportVisitor (exportVisitor exportInExport)
     <> exportVisitor exportInExport.
Proof. split; [reflexivity | discriminate]. Qed.

(* ================================================================== *)
(** * Further properties of the modelled code *)

(** ** The order of the merged statements *)

Lemma insert_sorted_Permutation (x : string) (l : list string) :
  Permutation (insert_sorted x l) (x :: l).
Proof.
  induction l as [|y l IH]; simpl; [reflexivity |].
  destruct (String.leb x y); [reflexivity |].
  rewrite IH. apply perm_swap.
Qed.

Lemma sort_Permutation (l : list string) : Permutation (sort l) l.
Proof.
  induction l as [|x l IH]; simpl; [reflexivity |].
  rewrite insert_sorted_Permutation. now constructor.
Qed.

Lemma leb_false_flip (x y : string) :
  String.leb x y = false -> String.leb y x = true.
Proof.
  intros H. destruct (String.leb_total x y) as [E | E]; congruence.
Qed.

Lemma insert_sorted_HdRel (x a : string) (l : list string) :
  ascending a x -> HdRel ascending a l -> HdRel ascending a (insert_sorted x l).
Proof.
  intros Hax Hl. destruct l as [|y l]; simpl; [now constructor |].
  destruct (String.leb x y); constructor; [exact Hax |].
  now inversion Hl.
Qed.

Lemma insert_sorted_Sorted (x : string) (l : list string) :
  Sorted ascending l -> Sorted ascending (insert_sorted x l).
Proof.
  induction 1 as [|y l Hl IH Hy]; simpl.
  - repeat constructor.
  - destruct (String.leb x y) eqn:E.
    + constructor; [now constructor | now constructor].
    + constructor; [exact IH |].
      apply insert_sorted_HdRel; [| exact Hy].
      now apply leb_false_flip.
Qed.

Lemma sort_Sorted (l : list string) : Sorted ascending (sort l).
Proof.
  induction l as [|x l IH]; simpl; [constructor |].
  now apply insert_sorted_Sorted.
Qed.

(** X1: the list [mergeImports] returns is in ascending order of its whole
    statements, and sorting neither drops nor adds one: it is a permutation
    of the statements the five emitting loops pushed. *)
Theorem mergeImports_sorted_permutation (imports : list string) :
  Sorted ascending (mergeImports imports)
  /\ Permutation (mergeImports imports) (mergedImports (parseImports imports)).
Proof.
  split; [apply sort_Sorted | apply sort_Permutation].
Qed.

(** ** What the parsing loop adds, and keeps *)

(** whatever the maps hold, a statement either adds nothing or adds one entry
    and names that depend on the statement alone *)
Lemma parseImport_shape (s : string) :
  (forall ms, parseImport ms s = ms)
  \/ exists t k names, forall ms, parseImport ms s = recordAll t k names ms.
Proof.
  unfold parseImport.
  destruct (importMatch s) as [[clause m]|]; [| now left].
  destruct (match clause with
            | Some c => (c =? "")%string
            | None => true
            end).
  - destruct (defaultMatch s) as [name|]; [| now left].
    right.
    exists (if includes "import type" s then TTypeDefault else TDefault),
      m, [name].
    reflexivity.
  - destruct (startsWith "{" _).
    + right. eexists _, m, _. reflexivity.
    + destruct (startsWith "* as" _).
      * destruct (namespaceMatch _) as [name|]; [| now left].
        right. exists TNamespace, m, [name]. reflexivity.
      * right. eexists _, m, [_]. reflexivity.
Qed.

Lemma setMap_getMap (t : Target) (ms : Maps) : setMap t (getMap t ms) ms = ms.
Proof. destruct ms, t; reflexivity. Qed.

Lemma map_get_app_l (k : string) (m m' : JsMap) (v : JsSet) :
  map_get k m = Some v -> map_get k (m ++ m')%list = Some v.
Proof.
  induction m as [|[k' v'] m IH]; simpl; [discriminate |].
  destruct (String.eqb k k'); auto.
Qed.

Lemma map_get_ensure (k k' : string) (m : JsMap) (v : JsSet) :
  map_get k' m = Some v -> map_get k' (map_ensure k m) = Some v.
Proof.
  intros H. unfold map_ensure. destruct (map_has k m) eqn:E; [exact H |].
  rewrite map_set_absent by exact E. now apply map_get_app_l.
Qed.

Lemma map_has_ensure (k : string) (m : JsMap) :
  map_has k (map_ensure k m) = true.
Proof.
  unfold map_ensure. destruct (map_has k m) eqn:E; [exact E |].
  rewrite map_set_absent by exact E. unfold map_has in *.
  induction m as [|[k' v'] m IH]; simpl in *.
  - now rewrite String.eqb_refl.
  - destruct (String.eqb k k'); [reflexivity | now apply IH].
Qed.

Lemma map_get_add (k x k' : string) (m : JsMap) :
  map_get k' (map_add k x m)
  = if String.eqb k k' then option_map (set_add x) (map_get k' m)
    else map_get k' m.
Proof.
  induction m as [|[k0 v0] m IH]; simpl.
  - now destruct (String.eqb k k').
  - destruct (String.eqb_spec k k0) as [-> | Hk0]; simpl.
    + destruct (String.eqb_spec k' k0) as [-> | H0].
      * now rewrite String.eqb_refl.
      * destruct (String.eqb_spec k0 k'); [congruence | reflexivity].
    + destruct (String.eqb_spec k' k0) as [-> | H0].
      * destruct (String.eqb_spec k k0); [congruence | reflexivity].
      * exact IH.
Qed.

Lemma set_add_present (x : string) (v : JsSet) : In x v -> set_add x v = v.
Proof.
  intros H. unfold set_add. apply set_has_In in H. now rewrite H.
Qed.

Lemma map_add_present (k x : string) (m : JsMap) :
  (forall v, map_get k m = Some v -> In x v) -> map_add k x m = m.
Proof.
  induction m as [|[k0 v0] m IH]; simpl; intros H; [reflexivity |].
  destruct (String.eqb_spec k k0) as [-> | Hk].
  - rewrite set_add_present; [reflexivity | now apply H].
  - now rewrite IH.
Qed.

Lemma known_iff (t : Target) (k : string) (ms : Maps) :
  known t k ms <-> exists v, map_get k (getMap t ms) = Some v.
Proof.
  unfold known, map_has. destruct (map_get k (getMap t ms)) as [v|].
  - split; [now exists v | reflexivity].
  - split; [discriminate | intros [v H]; discriminate].
Qed.

(** no step of the loop removes an entry or a name *)
Lemma ensure_keeps (t t' : Target) (k k' : string) (ms : Maps) (v : JsSet) :
  map_get k' (getMap t' ms) = Some v ->
  map_get k' (getMap t' (ensure t k ms)) = Some v.
Proof.
  intros H. unfold ensure. rewrite getMap_setMap.
  destruct t, t'; simpl; auto using map_get_ensure.
Qed.

Lemma addName_keeps (t t' : Target) (k x k' : string) (ms : Maps)
    (v : JsSet) :
  map_get k' (getMap t' ms) = Some v ->
  exists v', map_get k' (getMap t' (addName t k x ms)) = Some v'
             /\ forall y, In y v -> In y v'.
Proof.
  intros H. unfold addName. rewrite getMap_setMap.
  destruct (Target_eqb t t') eqn:E.
  - assert (t = t') by (destruct t, t'; simpl in E; congruence). subst t'.
    rewrite map_get_add, H. destruct (String.eqb k k'); simpl.
    + eexists. split; [reflexivity |]. intros y Hy. apply In_set_add. auto.
    + exists v. auto.
  - exists v. auto.
Qed.

Lemma addName_records (t : Target) (k x : string) (ms : Maps) :
  known t k ms -> recorded t k x (addName t k x ms).
Proof.
  intros H. apply known_iff in H. destruct H as [v Hv].
  unfold recorded, addName. rewrite getMap_setMap.
  replace (Target_eqb t t) with true by now destruct t.
  rewrite map_get_add, String.eqb_refl, Hv. simpl.
  eexists. split; [reflexivity |]. apply In_set_add. now left.
Qed.

Lemma recorded_keeps_ensure (t t' : Target) (k k' x : string) (ms : Maps) :
  recorded t' k' x ms -> recorded t' k' x (ensure t k ms).
Proof.
  intros [v [Hv Hx]]. exists v. split; [| exact Hx]. now apply ensure_keeps.
Qed.

Lemma recorded_keeps_addName (t t' : Target) (k k' x y : string)
    (ms : Maps) :
  recorded t' k' x ms -> recorded t' k' x (addName t k y ms).
Proof.
  intros [v [Hv Hx]].
  destruct (addName_keeps t t' k y k' ms v Hv) as [v' [Hv' Hsub]].
  exists v'. auto.
Qed.

Lemma known_keeps_ensure (t t' : Target) (k k' : string) (ms : Maps) :
  known t' k' ms -> known t' k' (ensure t k ms).
Proof.
  rewrite !known_iff. intros [v Hv]. exists v. now apply ensure_keeps.
Qed.

Lemma known_keeps_addName (t t' : Target) (k k' y : string) (ms : Maps) :
  known t' k' ms -> known t' k' (addName t k y ms).
Proof.
  rewrite !known_iff. intros [v Hv].
  destruct (addName_keeps t t' k y k' ms v Hv) as [v' [Hv' _]]. now exists v'.
Qed.

Lemma known_ensure (t : Target) (k : string) (ms : Maps) :
  known t k (ensure t k ms).
Proof.
  unfold known, ensure. rewrite getMap_setMap.
  replace (Target_eqb t t) with true by now destruct t.
  apply map_has_ensure.
Qed.

Lemma addNames_keep (t : Target) (k : string) (names : list string)
    (P : Maps -> Prop) :
  (forall y ms, P ms -> P (addName t k y ms)) ->
  forall ms, P ms ->
    P (fold_left (fun acc name => addName t k name acc) names ms).
Proof.
  intros HP. induction names as [|y names IH]; intros ms H; simpl; auto.
Qed.

Lemma recordAll_keeps_recorded (t t' : Target) (k k' x : string)
    (names : list string) (ms : Maps) :
  recorded t' k' x ms -> recorded t' k' x (recordAll t k names ms).
Proof.
  intros H. unfold recordAll. apply addNames_keep.
  - intros y ms'. apply recorded_keeps_addName.
  - now apply recorded_keeps_ensure.
Qed.

Lemma recordAll_keeps_known (t t' : Target) (k k' : string)
    (names : list string) (ms : Maps) :
  known t' k' ms -> known t' k' (recordAll t k names ms).
Proof.
  intros H. unfold recordAll. apply addNames_keep.
  - intros y ms'. apply known_keeps_addName.
  - now apply known_keeps_ensure.
Qed.

Lemma recordAll_known (t : Target) (k : string) (names : list string)
    (ms : Maps) :
  known t k (recordAll t k names ms).
Proof.
  unfold recordAll. apply addNames_keep.
  - intros y ms'. apply known_keeps_addName.
  - apply known_ensure.
Qed.

Lemma recordAll_records (t : Target) (k : string) (names : list string) :
  forall ms x, In x names -> recorded t k x (recordAll t k names ms).
Proof.
  unfold recordAll. intros ms. generalize (known_ensure t k ms).
  generalize (ensure t k ms). clear ms.
  induction names as [|y names IH]; intros ms Hk x Hx; simpl; [destruct Hx |].
  destruct Hx as [-> | Hx].
  - apply addNames_keep.
    + intros z ms'. apply recorded_keeps_addName.
    + now apply addName_records.
  - apply IH; [now apply known_keeps_addName | exact Hx].
Qed.

(** once the entry and the names are there, recording them again changes
    nothing *)
Lemma recordAll_absorbed (t : Target) (k : string) (names : list string)
    (ms : Maps) :
  known t k ms -> (forall x, In x names -> recorded t k x ms) ->
  recordAll t k names ms = ms.
Proof.
  intros Hk Hn. unfold recordAll.
  assert (E : ensure t k ms = ms).
  { unfold ensure, map_ensure. unfold known in Hk. rewrite Hk.
    apply setMap_getMap. }
  rewrite E. clear E Hk.
  induction names as [|y names IH]; simpl; [reflexivity |].
  assert (E : addName t k y ms = ms).
  { unfold addName. rewrite map_add_present; [apply setMap_getMap |].
    intros v Hv. destruct (Hn y (or_introl eq_refl)) as [v' [Hv' Hy]].
    congruence. }
  rewrite E. apply IH. intros x Hx. apply Hn. now right.
Qed.

Lemma parseImport_keeps_recorded (t : Target) (k x s : string) (ms : Maps) :
  recorded t k x ms -> recorded t k x (parseImport ms s).
Proof.
  intros H. destruct (parseImport_shape s) as [E | [t' [k' [names E]]]];
    rewrite E; [exact H | now apply recordAll_keeps_recorded].
Qed.

Lemma parseImport_keeps_known (t : Target) (k s : string) (ms : Maps) :
  known t k ms -> known t k (parseImport ms s).
Proof.
  intros H. destruct (parseImport_shape s) as [E | [t' [k' [names E]]]];
    rewrite E; [exact H | now apply recordAll_keeps_known].
Qed.

Lemma fold_parseImport_keeps (P : Maps -> Prop) (l : list string) :
  (forall s ms, P ms -> P (parseImport ms s)) ->
  forall ms, P ms -> P (fold_left parseImport l ms).
Proof.
  intros HP. induction l as [|s l IH]; intros ms H; simpl; auto.
Qed.

(** X2: the parsing loop only adds: a module path or a name recorded after a
    part of the input is still recorded after the whole input, whatever
    statements follow. *)
Theorem parseImports_monotone (l1 l2 : list string) (t : Target)
    (k x : string) :
  (known t k (parseImports l1) -> known t k (parseImports (l1 ++ l2)))
  /\ (recorded t k x (parseImports l1) ->
      recorded t k x (parseImports (l1 ++ l2))).
Proof.
  unfold parseImports. rewrite fold_left_app. split; intros H.
  - apply fold_parseImport_keeps; [| exact H].
    intros s ms. apply parseImport_keeps_known.
  - apply fold_parseImport_keeps; [| exact H].
    intros s ms. apply parseImport_keeps_recorded.
Qed.

Lemma parseImports_monotone_witness :
  recorded TImport "fs" "readFile"
    (parseImports [ "import { readFile } from 'fs';";
                    "import type { readFile } from 'fs';";
                    "import x from 'y';" ]).
Proof.
  apply (proj2 (parseImports_monotone
                  [ "import { readFile } from 'fs';" ]
                  [ "import type { readFile } from 'fs';";
                    "import x from 'y';" ] TImport "fs" "readFile")).
  exists ["readFile"]. split; [vm_compute; reflexivity | simpl; auto].
Defined.

(** X3: a statement that occurred earlier in the list contributes nothing
    the second time: the output is that of the list without the repetition. *)
Theorem mergeImports_repeated_statement (s : string)
    (l1 l2 : list string) :
  In s l1 ->
  mergeImports (l1 ++ s :: l2)%list = mergeImports (l1 ++ l2)%list.
Proof.
  intros Hin. unfold mergeImports, parseImports.
  rewrite !fold_left_app. simpl.
  replace (parseImport (fold_left parseImport l1 emptyMaps) s)
    with (fold_left parseImport l1 emptyMaps); [reflexivity |].
  symmetry.
  destruct (parseImport_shape s) as [E | [t [k [names E]]]]; [apply E |].
  rewrite E. apply in_split in Hin. destruct Hin as [a [b ->]].
  rewrite fold_left_app. simpl. rewrite E.
  apply recordAll_absorbed.
  - apply fold_parseImport_keeps;
      [intros s' ms; apply parseImport_keeps_known | apply recordAll_known].
  - intros x Hx. apply fold_parseImport_keeps;
      [intros s' ms; apply parseImport_keeps_recorded
      | now apply recordAll_records].
Qed.

Lemma mergeImports_repeated_statement_witness :
  mergeImports [ "import { readFile } from 'fs';"; "import x from 'y';";
                 "import { readFile } from 'fs';" ]
  = mergeImports [ "import { readFile } from 'fs';"; "import x from 'y';" ].
Proof.
  change (mergeImports
            ([ "import { readFile } from 'fs';"; "import x from 'y';" ]
             ++ "import { readFile } from 'fs';" :: [])%list
          = mergeImports
              ([ "import { readFile } from 'fs';"; "import x from 'y';" ]
               ++ [])%list).
  apply mergeImports_repeated_statement. simpl. auto.
Defined.

(** X4: a type-only import loses its marker next to a value import: when a
    module path has a value entry of a form (named or default), every name
    recorded for it as type-only in that form is listed in the value
    statement of that form, which is in the output. *)
Theorem type_names_join_value_statement (imports : list string)
    (m n : string) (value typeOnly : Target) (valueKind : Kind) :
  (value = TImport /\ typeOnly = TTypeImport /\ valueKind = NamedValue)
  \/ (value = TDefault /\ typeOnly = TTypeDefault
      /\ valueKind = DefaultValue) ->
  known value m (parseImports imports) ->
  recorded typeOnly m n (parseImports imports) ->
  exists r, In r (emitted (parseImports imports))
            /\ kind r = valueKind /\ modulePath r = m /\ In n (bindings r)
            /\ In (render r) (mergeImports imports).
Proof.
  intros Hform Hk [names [Hget Hn]].
  destruct (recorded_name_emitted _ typeOnly m names n Hget Hn)
    as [r [Hr [Hm [Hb Hf]]]].
  exists r. repeat split; try assumption.
  - destruct (value_kind_prevails _ r Hr) as [Hnamed Hdefault].
    rewrite Hm in Hnamed, Hdefault. unfold known in Hk.
    destruct Hform as [[-> [-> ->]] | [-> [-> ->]]];
      [now apply Hnamed | now apply Hdefault].
  - unfold mergeImports. rewrite mergedImports_render.
    apply In_sort, in_map, Hr.
Qed.

Lemma type_names_join_value_statement_witness :
  exists r,
    In r (emitted (parseImports [ "import {} from 'fs';";
                                  "import type { Stats } from 'fs';" ]))
    /\ kind r = NamedValue /\ modulePath r = "fs" /\ In "Stats" (bindings r)
    /\ In (render r)
          (mergeImports [ "import {} from 'fs';";
                          "import type { Stats } from 'fs';" ]).
Proof.
  apply (type_names_join_value_statement _ "fs" "Stats" TImport TTypeImport).
  - left. repeat split.
  - vm_compute. reflexivity.
  - exists ["Stats"]. split; [vm_compute; reflexivity | simpl; auto].
Defined.

(** ** The names of a braced clause *)

Lemma trimStart_head (s : string) :
  trimStart s = "" \/ exists c t, trimStart s = String c t /\ is_space c = false.
Proof.
  induction s as [|c s IH]; simpl; [now left |].
  destruct (is_space c) eqn:E; [exact IH |].
  right. now exists c, s.
Qed.

Lemma trimEnd_twice (s : string) : trimEnd (trimEnd s) = trimEnd s.
Proof.
  induction s as [|c s IH]; simpl; [reflexivity |].
  destruct (trimEnd s) as [|d t] eqn:E.
  - destruct (is_space c) eqn:Ec; simpl; [reflexivity | now rewrite Ec].
  - simpl in IH. simpl. now rewrite IH.
Qed.

Lemma trimEnd_head (c : ascii) (s : string) :
  is_space c = false -> exists t, trimEnd (String c s) = String c t.
Proof.
  intros H. simpl. destruct (trimEnd s) as [|d t].
  - rewrite H. now exists "".
  - now exists (String d t).
Qed.

Lemma trim_twice (s : string) : trim (trim s) = trim s.
Proof.
  unfold trim. destruct (trimStart_head s) as [E | [c [t [E Hc]]]]; rewrite E.
  - reflexivity.
  - destruct (trimEnd_head c t Hc) as [u Eu]. rewrite Eu.
    simpl trimStart. rewrite Hc. rewrite <- Eu. apply trimEnd_twice.
Qed.

Lemma all_chars_trimStart (p : ascii -> bool) (s : string) :
  all_chars p s -> all_chars p (trimStart s).
Proof.
  induction s as [|c s IH]; simpl; [tauto |].
  intros [Hc Hs]. destruct (is_space c); [now apply IH | now split].
Qed.

Lemma all_chars_trimEnd (p : ascii -> bool) (s : string) :
  all_chars p s -> all_chars p (trimEnd s).
Proof.
  induction s as [|c s IH]; simpl; [tauto |].
  intros [Hc Hs]. specialize (IH Hs).
  destruct (trimEnd s) as [|d t].
  - destruct (is_space c); simpl; tauto.
  - simpl in *. tauto.
Qed.

Lemma all_chars_trim (p : ascii -> bool) (s : string) :
  all_chars p s -> all_chars p (trim s).
Proof. intros H. now apply all_chars_trimEnd, all_chars_trimStart. Qed.

Lemma match_at_cls (p : ascii -> bool) (prev : option ascii) (c : ascii)
    (s : string) :
  match_at (Cls p) prev (String c s)
  = if p c then Some (MState (Some c) s []) else None.
Proof. reflexivity. Qed.

(** replacing a character class by nothing leaves no character of it *)
Lemma replace_all_cls_none (p : ascii -> bool) (q : ascii -> bool)
    (s : string) :
  all_chars q s ->
  forall prev,
    all_chars (fun a => negb (p a) && q a) (scan (Cls p) "" 0 prev s).
Proof.
  induction s as [|c s IH]; intros H prev; [exact I |].
  destruct H as [Hc Hs]. rewrite scan_cons, match_at_cls.
  destruct (p c) eqn:E.
  - cbn [st_rest]. replace (String.length (String c s) - String.length s)
      with 1 by (cbn [String.length]; lia).
    simpl. now apply IH.
  - simpl. rewrite E, Hc. split; [reflexivity | now apply IH].
Qed.

Lemma split_pieces (sep : ascii) (q : ascii -> bool) (s : string) :
  all_chars q s ->
  Forall (all_chars (fun a => negb (Ascii.eqb a sep) && q a)) (split sep s).
Proof.
  induction s as [|c s IH]; simpl; intros H.
  - repeat constructor.
  - destruct H as [Hc Hs]. specialize (IH Hs).
    destruct (Ascii.eqb c sep) eqn:E.
    + constructor; [exact I | exact IH].
    + destruct (split sep s) as [|h t]; inversion IH; subst;
        (constructor; [| assumption || constructor]);
        simpl; rewrite E, Hc; auto.
Qed.

(** X5: the names read from a braced clause are never empty, carry no white
    space at either end and hold no brace and no comma. *)
Theorem clauseNames_clean (importClause name : string) :
  In name (clauseNames importClause) ->
  name <> ""
  /\ trim name = name
  /\ all_chars (fun a => negb (Ascii.eqb a ",") && negb (is_brace a)) name.
Proof.
  unfold clauseNames, filterBoolean. intros H.
  apply filter_In in H. destruct H as [H Hne].
  apply in_map_iff in H. destruct H as [piece [<- Hp]].
  split; [| split].
  - apply negb_true_iff, String.eqb_neq in Hne. exact Hne.
  - apply trim_twice.
  - apply all_chars_trim.
    assert (B : all_chars (fun a => negb (is_brace a) && true)
                  (replace_all braceRe "" importClause)).
    { apply (replace_all_cls_none is_brace (fun _ => true)).
      clear. induction importClause; simpl; [exact I | now split]. }
    pose proof (split_pieces ","%char _ _ B) as F.
    rewrite Forall_forall in F. specialize (F piece Hp).
    clear - F. induction piece as [|a piece IH]; simpl in *; [exact I |].
    destruct F as [Ha Hs]. split; [| now apply IH].
    destruct (Ascii.eqb a ","), (is_brace a); simpl in *; congruence.
Qed.

Lemma clauseNames_clean_witness :
  "readFile as rf" <> ""
  /\ trim "readFile as rf" = "readFile as rf"
  /\ all_chars (fun a => negb (Ascii.eqb a ",") && negb (is_brace a))
       "readFile as rf".
Proof.
  apply (clauseNames_clean "{ a ,  readFile as rf , }").
  vm_compute. auto.
Defined.

(** ** The import visitor on syntax trees *)

Lemma importVisitor_children (node : Node) (acc : list string) :
  importVisitor node acc
  = match node with
    | ImportDeclaration text | ImportEqualsDeclaration text =>
        (EmptyStatement, (acc ++ [text])%list)
    | SourceFile children =>
        let '(cs, removed) := importVisitEach children acc in
        (SourceFile cs, removed)
    | Declaration kind mods text children =>
        let '(cs, removed) := importVisitEach children acc in
        (Declaration kind mods text cs, removed)
    | OtherNode text children =>
        let '(cs, removed) := importVisitEach children acc in
        (OtherNode text cs, removed)
    | ExportAssignment expr =>
        let '(e, removed) := importVisitor expr acc in
        (ExportAssignment e, removed)
    | ExportDeclaration _ | Identifier _ | EmptyStatement => (node, acc)
    end.
Proof. destruct node; reflexivity. Qed.

Lemma importVisitEach_spec (children : list Node) :
  Forall (fun c => forall acc,
            importVisitor c acc = (stripImports c, (acc ++ importTexts c)%list))
         children ->
  forall acc,
    importVisitEach children acc
    = (map stripImports children,
       (acc ++ flat_map importTexts children)%list).
Proof.
  induction 1 as [|c cs Hc _ IH]; intros acc; simpl.
  - now rewrite app_nil_r.
  - rewrite Hc, IH. now rewrite app_assoc.
Qed.

(** the import visitor replaces every import declaration and every
    alias-style import, at any depth, by an empty statement, leaves the rest
    of the tree as it is, and appends the source texts of the nodes it
    replaced to the shared list, in the order of a depth-first walk *)
Lemma importVisitor_walk (node : Node) (removedStatements : list string) :
  importVisitor node removedStatements
  = (stripImports node, (removedStatements ++ importTexts node)%list).
Proof.
  revert removedStatements.
  induction node as [cs IH | k mods text cs IH | text | e IH | text | text
                    | name | | text cs IH] using Node_forall_ind;
    intros acc; rewrite importVisitor_children; simpl;
    rewrite ?(importVisitEach_spec _ IH), ?IH, ?app_nil_r; reflexivity.
Qed.

Lemma forallb_map_true (f : Node -> Node) (p : Node -> bool)
    (cs : list Node) :
  Forall (fun c => p (f c) = true) cs -> forallb p (map f cs) = true.
Proof.
  induction 1 as [|c cs Hc _ IH]; simpl; [reflexivity |]. now rewrite Hc, IH.
Qed.

Lemma stripImports_importFree (node : Node) :
  importFree (stripImports node) = true.
Proof.
  induction node as [cs IH | k mods text cs IH | text | e IH | text | text
                    | name | | text cs IH] using Node_forall_ind;
    simpl; auto using forallb_map_true.
Qed.

Lemma map_fixed_by (f : Node -> Node) (p : Node -> bool) (cs : list Node) :
  Forall (fun c => p c = true -> f c = c) cs ->
  forallb p cs = true -> map f cs = cs.
Proof.
  induction 1 as [|c cs Hc _ IH]; simpl; [reflexivity |].
  intros H. apply andb_true_iff in H. destruct H as [H1 H2].
  now rewrite Hc, IH.
Qed.

Lemma flat_map_nil_by (f : Node -> list string) (p : Node -> bool)
    (cs : list Node) :
  Forall (fun c => p c = true -> f c = []) cs ->
  forallb p cs = true -> flat_map f cs = [].
Proof.
  induction 1 as [|c cs Hc _ IH]; simpl; [reflexivity |].
  intros H. apply andb_true_iff in H. destruct H as [H1 H2].
  now rewrite Hc, IH.
Qed.

Lemma importFree_fixed (node : Node) :
  importFree node = true ->
  stripImports node = node /\ importTexts node = [].
Proof.
  induction node as [cs IH | k mods text cs IH | text | e IH | text | text
                    | name | | text cs IH] using Node_forall_ind;
    simpl; intros H; try discriminate; try (split; reflexivity).
  - split.
    + rewrite (map_fixed_by stripImports importFree); [reflexivity | | exact H].
      eapply Forall_impl; [| exact IH]. intros c Hc Hf. now apply Hc.
    + apply (flat_map_nil_by importTexts importFree); [| exact H].
      eapply Forall_impl; [| exact IH]. intros c Hc Hf. now apply Hc.
  - split.
    + rewrite (map_fixed_by stripImports importFree); [reflexivity | | exact H].
      eapply Forall_impl; [| exact IH]. intros c Hc Hf. now apply Hc.
    + apply (flat_map_nil_by importTexts importFree); [| exact H].
      eapply Forall_impl; [| exact IH]. intros c Hc Hf. now apply Hc.
  - destruct (IH H) as [E1 E2]. now rewrite E1, E2.
  - split.
    + rewrite (map_fixed_by stripImports importFree); [reflexivity | | exact H].
      eapply Forall_impl; [| exact IH]. intros c Hc Hf. now apply Hc.
    + apply (flat_map_nil_by importTexts importFree); [| exact H].
      eapply Forall_impl; [| exact IH]. intros c Hc Hf. now apply Hc.
Qed.

(** X6: the tree the import visitor returns holds no import node, and a
    second visit returns it unchanged and adds nothing to the list. *)
Theorem importVisitor_leaves_no_import (node : Node)
    (acc acc' : list string) :
  let out := fst (importVisitor node acc) in
  importFree out = true /\ importVisitor out acc' = (out, acc').
Proof.
  intros out. unfold out. rewrite importVisitor_walk. simpl.
  split; [apply stripImports_importFree |].
  rewrite importVisitor_walk.
  destruct (importFree_fixed _ (stripImports_importFree node)) as [-> ->].
  now rewrite app_nil_r.
Qed.

(** ** The export visitor, after one visit *)

Lemma exportVisitor_not_identifier (e : Node) :
  (forall name, e <> Identifier name) ->
  forall name, exportVisitor e <> Identifier name.
Proof.
  intros H name. destruct e; simpl; try discriminate.
  - destruct (lengthDiffers _ _); discriminate.
  - destruct e; discriminate.
  - apply H.
Qed.

Lemma exportFree_assignment (e : Node) :
  (forall name, e <> Identifier name) ->
  exportFree (ExportAssignment e) = exportFree e.
Proof.
  intros H. destruct e; try reflexivity. exfalso. now apply (H name).
Qed.

Lemma forallb_visited (p : Node -> bool) (cs : list Node) :
  Forall (fun c => wellNested c = true -> p (exportVisitor c) = true) cs ->
  forallb wellNested cs = true ->
  forallb p (map exportVisitor cs) = true.
Proof.
  induction 1 as [|c cs Hc _ IH]; simpl; [reflexivity |].
  intros H. apply andb_true_iff in H. destruct H as [H1 H2].
  now rewrite Hc, IH.
Qed.

(** X7: in a tree whose export markers are nested as the grammar checks
    demand, one visit of the export visitor leaves nothing for it to do: no
    declaration of the six kinds carries an export or default marker, and no
    export declaration and no default export of a plain identifier is
    left. *)
Theorem exportVisitor_settles (node : Node) :
  wellNested node = true -> exportFree (exportVisitor node) = true.
Proof.
  induction node as [cs IH | k mods text cs IH | text | e IH | text | text
                    | name | | text cs IH] using Node_forall_ind;
    simpl; intros H; try reflexivity.
  - now apply forallb_visited.
  - fold (stripsMarker mods) in *.
    destruct (stripsMarker mods) eqn:E; simpl.
    + now rewrite stripsMarker_once, H.
    + rewrite E. simpl. now apply forallb_visited.
  - destruct e; try reflexivity;
      (rewrite exportFree_assignment;
       [ apply IH, H
       | apply exportVisitor_not_identifier; discriminate ]).
  - now apply forallb_visited.
Qed.

Lemma exportVisitor_settles_witness :
  wellNested (SourceFile [Declaration FunctionDeclaration
                            (Some [ExportKeyword; AsyncKeyword]) "f" [];
                          ExportAssignment (Identifier "f")]) = true
  /\ exportFree
       (exportVisitor
          (SourceFile [Declaration FunctionDeclaration
                         (Some [ExportKeyword; AsyncKeyword]) "f" [];
                       ExportAssignment (Identifier "f")])) = true.
Proof.
  split; [reflexivity |].
  apply (exportVisitor_settles
           (SourceFile [Declaration FunctionDeclaration
                          (Some [ExportKeyword; AsyncKeyword]) "f" [];
                        ExportAssignment (Identifier "f")])).
  reflexivity.
Defined.

(** ** The pipeline of [bundle] *)

Section PipelineProperties.

Variable CompilerOptions : Type.
Variable createSourceFile : string -> string -> Node.
Variable printFile : CompilerOptions -> Node -> string.
Variable dependencies : string -> Result Deps.
Variable resolvePath : string -> string.
Variable readFile : string -> string.
Variable tsconfig : option string -> CompilerOptions.
Variable fileExtensionAndFormat : list DepsFile -> Result unit.
Variable checkTypes : list DepsFile -> CompilerOptions -> Result unit.
Variable checkJSX : list DepsFile -> bool.
Variable renamed : list DepsFile -> CompilerOptions -> Result (list DepsFile).
Variable notRenamed :
  list DepsFile -> CompilerOptions -> Result (list DepsFile).
Variable anonymous : list DepsFile -> CompilerOptions -> Result (list DepsFile).

Lemma removeImport_unit (compilerOptions : CompilerOptions)
    (removedStatements : list string) (d : DepsFile) :
  removeImportExpressionHandler CompilerOptions createSourceFile printFile
    compilerOptions removedStatements d
  = (withoutImports CompilerOptions createSourceFile printFile
       compilerOptions d,
     (removedStatements ++ importsOf createSourceFile d)%list).
Proof.
  unfold removeImportExpressionHandler. rewrite importVisitor_walk.
  reflexivity.
Qed.

Lemma removeImports_all (compilerOptions : CompilerOptions)
    (deps : list DepsFile) :
  forall removedStatements,
    mapRemoveImports CompilerOptions createSourceFile printFile
      compilerOptions removedStatements deps
    = (map (withoutImports CompilerOptions createSourceFile printFile
              compilerOptions) deps,
       (removedStatements ++ flat_map (importsOf createSourceFile) deps)%list).
Proof.
  induction deps as [|d ds IH]; intros acc; simpl.
  - now rewrite app_nil_r.
  - rewrite removeImport_unit, IH. now rewrite app_assoc.
Qed.

(** X8: mapping the import handler over the units keeps their number, their
    order and their paths; every unit comes back as the printed and cleaned
    text of its tree without import nodes, and the shared list receives the
    import texts of the units one unit after the other, in list order,
    behind what it held before. *)
Theorem removeImports_collects (compilerOptions : CompilerOptions)
    (removedStatements : list string) (deps : list DepsFile) :
  mapRemoveImports CompilerOptions createSourceFile printFile
    compilerOptions removedStatements deps
  = (map (withoutImports CompilerOptions createSourceFile printFile
            compilerOptions) deps,
     (removedStatements ++ flat_map (importsOf createSourceFile) deps)%list)
  /\ map file
       (fst (mapRemoveImports CompilerOptions createSourceFile printFile
               compilerOptions removedStatements deps))
     = map file deps.
Proof.
  split; [apply removeImports_all |].
  rewrite removeImports_all. simpl. rewrite map_map. reflexivity.
Qed.

Lemma sliceLast_snoc {A : Type} (xs : list A) (x : A) :
  sliceLast (xs ++ [x]) = [x].
Proof. unfold sliceLast. now rewrite rev_unit. Qed.

(** X9: when no stage throws and the units that reach step 7 are
    [ds ++ [main]], the bundle is put together from the hoisted imports of
    all units, then the units of [ds] with imports and export markers taken
    out, then the entry unit with its imports taken out and its exports
    kept; the JSX flag is the one of the files as read, before any
    renaming. *)
Theorem bundle_assembles (entry : string) (options : option BundleOptions)
    (files : list DepsFile) (messages : list string)
    (deps1 ds : list DepsFile) (main : DepsFile) :
  let compilerOptions := tsconfig (configPath options) in
  dependency dependencies resolvePath readFile entry = Ok (files, messages) ->
  fileExtensionAndFormat files = Ok tt ->
  checkTypes files compilerOptions = Ok tt ->
  (if wantsRename options then renamed files compilerOptions
   else notRenamed files compilerOptions) = Ok deps1 ->
  anonymous deps1 compilerOptions = Ok (ds ++ [main])%list ->
  bundle CompilerOptions createSourceFile printFile dependencies resolvePath
         readFile tsconfig fileExtensionAndFormat checkTypes checkJSX
         renamed notRenamed anonymous entry options
  = Ok (MkBundled
          (assemble
             (hoistImports
                (flat_map (importsOf createSourceFile) (ds ++ [main])))
             (map (fun d =>
                     removeExportExpressionHandler CompilerOptions
                       createSourceFile printFile compilerOptions
                       (withoutImports CompilerOptions createSourceFile
                          printFile compilerOptions d)) ds)
             [withoutImports CompilerOptions createSourceFile printFile
                compilerOptions main])
          (checkJSX files)).
Proof.
  intros co Hd Hf Ht Hr Ha. unfold bundle.
  rewrite Hd. simpl.
  fold (configPath options). fold co. rewrite Hf. simpl. rewrite Ht. simpl.
  fold (wantsRename options). rewrite Hr. simpl. rewrite Ha. simpl.
  rewrite removeImports_all. simpl. rewrite map_app. simpl.
  rewrite removelast_last, sliceLast_snoc, map_map. reflexivity.
Qed.

(** X10: [bundle] swallows no error.  When it returns a result, the
    resolver returned a dependency list and, on the files read from that
    list in sorted order, the extension check, the type check, the
    duplicate handling chosen by [renameDuplicates] and the anonymous
    handling all returned.  The result is then put together from the units
    the anonymous handling returned: the hoisted imports of all of them,
    the units before the last one with imports and export markers taken
    out, and the last one with its imports taken out, also when there is
    one unit or none; the JSX flag is the one of the files as read. *)
Theorem bundle_returns_through_every_stage (entry : string)
    (options : option BundleOptions) (b : Bundled) :
  let compilerOptions := tsconfig (configPath options) in
  bundle CompilerOptions createSourceFile printFile dependencies resolvePath
         readFile tsconfig fileExtensionAndFormat checkTypes checkJSX
         renamed notRenamed anonymous entry options = Ok b ->
  exists deps deps1 deps2,
    dependencies entry = Ok deps
    /\ let files :=
         map (fun dep => MkDepsFile (resolvePath dep)
                                    (readFile (resolvePath dep)))
             (sort_ deps) in
       let units :=
         map (withoutImports CompilerOptions createSourceFile printFile
                compilerOptions) deps2 in
       fileExtensionAndFormat files = Ok tt
       /\ checkTypes files compilerOptions = Ok tt
       /\ (if wantsRename options then renamed files compilerOptions
           else notRenamed files compilerOptions) = Ok deps1
       /\ anonymous deps1 compilerOptions = Ok deps2
       /\ b = MkBundled
                (assemble
                   (hoistImports (flat_map (importsOf createSourceFile) deps2))
                   (map (removeExportExpressionHandler CompilerOptions
                           createSourceFile printFile compilerOptions)
                        (removelast units))
                   (sliceLast units))
                (checkJSX files).
Proof.
  intros co. unfold bundle, dependency, getDependencies.
  fold (configPath options). fold co. fold (wantsRename options).
  destruct (dependencies entry) as [deps | e0]; simpl; [| discriminate].
  set (files := map _ (sort_ deps)).
  destruct (fileExtensionAndFormat files) as [[] | e1] eqn:Ef; simpl;
    [| discriminate].
  destruct (checkTypes files co) as [[] | e2] eqn:Et; simpl; [| discriminate].
  destruct (if wantsRename options then renamed files co
            else notRenamed files co) as [deps1 | e3] eqn:Er; simpl;
    [| discriminate].
  destruct (anonymous deps1 co) as [deps2 | e4] eqn:Ea; simpl;
    [| discriminate].
  rewrite removeImports_all. simpl. intros H. injection H as <-.
  exists deps, deps1, deps2. fold files. cbv zeta. repeat split; assumption.
Qed.

(** X11: every text the two handlers hand back, and the content [bundle]
    returns, is trimmed: trimming it again changes nothing. *)
Theorem returned_texts_are_trimmed :
  (forall compilerOptions removedStatements d,
      let out :=
        content (fst (removeImportExpressionHandler CompilerOptions
                        createSourceFile printFile compilerOptions
                        removedStatements d)) in
      trim out = out)
  /\ (forall compilerOptions d,
         let out :=
           content (removeExportExpressionHandler CompilerOptions
                      createSourceFile printFile compilerOptions d) in
         trim out = out)
  /\ (forall entry options,
         match bundle CompilerOptions createSourceFile printFile dependencies
                      resolvePath readFile tsconfig fileExtensionAndFormat
                      checkTypes checkJSX renamed notRenamed anonymous
                      entry options with
         | Ok b => trim (bundleContent b) = bundleContent b
         | Throw _ => True
         end).
Proof.
  split; [| split].
  - intros co acc d. rewrite removeImport_unit. simpl. apply trim_twice.
  - intros co d. simpl. apply trim_twice.
  - intros entry options. unfold bundle.
    destruct (dependency _ _ _ entry) as [dd | ?]; simpl; [| exact I].
    destruct (fileExtensionAndFormat _) as [? | ?]; simpl; [| exact I].
    destruct (checkTypes _ _) as [? | ?]; simpl; [| exact I].
    match goal with
    | |- context [bind ?r _] => destruct r as [deps1 | ?]; simpl; [| exact I]
    end.
    destruct (anonymous deps1 _) as [deps2 | ?]; simpl; [| exact I].
    destruct (mapRemoveImports _ _ _ _ _ _). simpl. apply trim_twice.
Qed.

End PipelineProperties.

Lemma bundle_returns_through_every_stage_witness :
  exists deps deps1 deps2,
    quietResolver "b" = Ok deps
    /\ let files :=
         map (fun dep => MkDepsFile dep (readStub dep)) (sort_ deps) in
       let units := map (withoutImports unit leafParse printStub tt) deps2 in
       okUnit files = Ok tt
       /\ okTypes files tt = Ok tt
       /\ okDeps files tt = Ok deps1
       /\ okDeps deps1 tt = Ok deps2
       /\ MkBundled ("const a = 1;" ++ nl ++ "const b = 1;") false
          = MkBundled
              (assemble
                 (hoistImports (flat_map (importsOf leafParse) deps2))
                 (map (removeExportExpressionHandler unit leafParse
                         printStub tt)
                      (removelast units))
                 (sliceLast units))
              (noJsx files).
Proof.
  apply (bundle_returns_through_every_stage unit leafParse printStub
           quietResolver (fun p => p) readStub (fun _ => tt) okUnit okTypes
           noJsx okDeps okDeps okDeps "b" None
           (MkBundled ("const a = 1;" ++ nl ++ "const b = 1;") false)).
  vm_compute. reflexivity.
Defined.

Lemma bundle_assembles_witness :
  stubBundle quietResolver
  = Ok (MkBundled
          (assemble
             (hoistImports
                (flat_map (importsOf leafParse)
                   ([MkDepsFile "a" (readStub "a")]
                    ++ [MkDepsFile "b" (readStub "b")])))
             (map (fun d =>
                     removeExportExpressionHandler unit leafParse printStub tt
                       (withoutImports unit leafParse printStub tt d))
                  [MkDepsFile "a" (readStub "a")])
             [withoutImports unit leafParse printStub tt
                (MkDepsFile "b" (readStub "b"))])
          false).
Proof.
  exact (bundle_assembles unit leafParse printStub quietResolver
           (fun p => p) readStub (fun _ => tt) okUnit okTypes noJsx
           okDeps okDeps okDeps "b" None
           [MkDepsFile "a" (readStub "a"); MkDepsFile "b" (readStub "b")] []
           [MkDepsFile "a" (readStub "a"); MkDepsFile "b" (readStub "b")]
           [MkDepsFile "a" (readStub "a")] (MkDepsFile "b" (readStub "b"))
           eq_refl eq_refl eq_refl eq_refl eq_refl).
Defined.

(** ** What the non-relative test of [bundle] lets through *)

(** a search succeeds when an attempt further to the right does *)
Lemma search_reaches (r : regex) (s : string) :
  (forall prev, match_at r prev s <> None) ->
  forall (pre : string) (prev : option ascii),
    search r prev (pre ++ s) <> None.
Proof.
  intros H pre. induction pre as [|a pre IH]; intros prev.
  - simpl. specialize (H prev).
    destruct s; simpl; destruct (match_at r prev _); congruence.
  - change (String a pre ++ s) with (String a (pre ++ s)).
    rewrite search_cons.
    destruct (match_at r prev _); [discriminate | apply IH].
Qed.

Lemma prefix_cons_same (a : ascii) (p s : string) :
  prefix (String a p) (String a s) = prefix p s.
Proof. simpl. destruct (ascii_dec a a); congruence. Qed.

(** the look-ahead lets a specifier through that begins with neither [./]
    nor [../] *)
Lemma lookahead_passes (prev : option ascii) (spec post : string)
    (q : ascii) (caps : list (nat * string)) :
  startsWith "./" spec = false -> startsWith "../" spec = false ->
  is_quote q = true ->
  rmatch (Alt (lit "./") (lit "../")) unit
         (MState prev (spec ++ String q post) caps) (fun _ => Some tt)
  = None.
Proof.
  unfold startsWith. intros H1 H2 Hq.
  assert (Qd : Ascii.eqb q "." = false).
  { destruct (Ascii.eqb_spec q "."); [subst; discriminate | reflexivity]. }
  assert (Qs : Ascii.eqb q "/" = false).
  { destruct (Ascii.eqb_spec q "/"); [subst; discriminate | reflexivity]. }
  destruct spec as [|a1 spec]; cbn.
  { now rewrite Qd. }
  destruct (Ascii.eqb_spec a1 ".") as [-> | N1]; [| reflexivity].
  destruct spec as [|a2 spec]; cbn.
  { now rewrite Qs, Qd. }
  destruct (Ascii.eqb_spec a2 "/") as [-> | N2].
  { rewrite !prefix_cons_same in H1. now destruct spec. }
  destruct (Ascii.eqb_spec a2 ".") as [-> | N3]; [| reflexivity].
  destruct spec as [|a3 spec]; cbn.
  { now rewrite Qs. }
  destruct (Ascii.eqb_spec a3 "/") as [-> | N4].
  { rewrite !prefix_cons_same in H2. now destruct spec. }
  reflexivity.
Qed.

(** an attempt at the opening quote of a quoted text that is not empty,
    holds no quote and begins with neither [./] nor [../] succeeds *)
Lemma regexp_accepts_external (prev : option ascii) (q1 q2 : ascii)
    (spec post : string) :
  is_quote q1 = true -> is_quote q2 = true ->
  spec <> "" -> all_chars not_quote spec ->
  startsWith "./" spec = false -> startsWith "../" spec = false ->
  match_at regexp prev (String q1 (spec ++ String q2 post)) <> None.
Proof.
  intros Hq1 Hq2 Hne Hspec H1 H2.
  unfold match_at, regexp, seqs, quote.
  rewrite rmatch_seq, rmatch_cls_cons, Hq1.
  unfold regexpGroup, seqs.
  rewrite rmatch_seq, rmatch_grp, rmatch_seq, rmatch_notahead.
  rewrite lookahead_passes by assumption.
  destruct spec as [|a spec]; [congruence |].
  destruct Hspec as [Ha Hspec].
  unfold plus, nonquote.
  change (String a spec ++ String q2 post)
    with (String a (spec ++ String q2 post)).
  rewrite rmatch_seq, rmatch_cls_cons, Ha.
  erewrite star_cls_greedy; [discriminate | | exact Hspec |].
  - unfold not_quote. now rewrite Hq2.
  - cbn. rewrite Hq2. reflexivity.
Qed.

(** X12: a removed statement passes the filter of step 9 as soon as it
    holds, anywhere, a quoted text that is not empty, holds no quote and
    begins with neither [./] nor [../], whatever stands before and after
    it: the test looks at any quoted text of the statement, not at the
    module specifier. *)
Theorem regexp_keeps_external (pre spec post : string) (q1 q2 : ascii) :
  is_quote q1 = true -> is_quote q2 = true ->
  spec <> "" -> all_chars not_quote spec ->
  startsWith "./" spec = false -> startsWith "../" spec = false ->
  test regexp (pre ++ String q1 (spec ++ String q2 post)) = true.
Proof.
  intros Hq1 Hq2 Hne Hspec H1 H2. unfold test, exec.
  pose proof (search_reaches regexp (String q1 (spec ++ String q2 post))
                (fun prev => regexp_accepts_external prev q1 q2 spec post
                               Hq1 Hq2 Hne Hspec H1 H2) pre None) as H.
  destruct (search regexp None _); [reflexivity | congruence].
Qed.

Lemma regexp_keeps_external_witness :
  test regexp
    ("import data from " ++ String DQ ("./data.json" ++ String DQ
       (" with { type: " ++ String DQ ("json" ++ String DQ " };"))))
  = true.
Proof.
  apply (regexp_keeps_external
           ("import data from " ++ String DQ ("./data.json" ++ String DQ
              " with { type: "))
           "json" " };" DQ DQ);
    try reflexivity; [discriminate | simpl; repeat split; reflexivity].
Defined.

(** ** The output names, exactly *)

(** the shape of a text at whose start one of the three name patterns
    matches *)
Lemma jsRe_shape (prev : option ascii) (s : string) (st : mstate) :
  match_at jsRe prev s = Some st ->
  exists a rest, s = String a ("js" ++ rest).
Proof.
  unfold match_at.
  destruct s as [|a1 [|a2 [|a3 s]]]; simpl; intros H; shape_ifs H.
  now exists a1, s.
Qed.

Lemma mapJsRe_shape (prev : option ascii) (s : string) (st : mstate) :
  match_at mapJsRe prev s = Some st ->
  exists a b rest, s = String a ("map" ++ String b ("js" ++ rest)).
Proof.
  unfold match_at.
  destruct s as [|a1 [|a2 [|a3 [|a4 [|a5 [|a6 [|a7 s]]]]]]]; simpl;
    intros H; shape_ifs H.
  now exists a1, a5, s.
Qed.

Lemma dtsRe_shape (prev : option ascii) (s : string) (st : mstate) :
  match_at dtsRe prev s = Some st ->
  exists a b rest, s = String a ("d" ++ String b ("ts" ++ rest)).
Proof.
  unfold match_at.
  destruct s as [|a1 [|a2 [|a3 [|a4 [|a5 s]]]]]; simpl;
    intros H; shape_ifs H.
  now exists a1, a3, s.
Qed.

Lemma includes_at (p x y : string) : includes p (x ++ p ++ y) = true.
Proof. apply includes_app_r, includes_app_l, includes_self. Qed.

Lemma includes_ending (p u1 u2 : string) :
  includes p (u1 ++ u2) = false -> includes p u2 = false.
Proof.
  intros H. destruct (includes p u2) eqn:E; [| reflexivity].
  now rewrite (includes_app_r p u1 u2 E) in H.
Qed.

(** a replacement passes over a beginning in which no attempt succeeds *)
Lemma scan_unmatched (r : regex) (rep t : string) :
  forall (u : string) (prev : option ascii),
    (forall prev' u1 u2, u = u1 ++ u2 -> u2 <> "" ->
                         match_at r prev' (u2 ++ t) = None) ->
    scan r rep 0 prev (u ++ t) = u ++ scan r rep 0 (prev_after u prev) t.
Proof.
  induction u as [|a u IH]; intros prev H; [reflexivity |].
  change (String a u ++ t) with (String a (u ++ t)).
  rewrite scan_cons.
  change (String a (u ++ t)) with (String a u ++ t).
  rewrite (H prev "" (String a u) eq_refl) by discriminate.
  simpl. f_equal. apply IH.
  intros prev' u1 u2 -> Hu2. now apply (H prev' (String a u1) u2).
Qed.

(** no attempt succeeds inside a stem without [js], or without [ts], also
    when it may read on into the ending *)
Lemma jsRe_unmatched (u1 u2 t : string) (prev : option ascii) :
  includes "js" (u1 ++ u2) = false -> u2 <> "" ->
  t = ".js" \/ t = ".js.map" \/ t = ".d.ts" ->
  match_at jsRe prev (u2 ++ t) = None.
Proof.
  intros Hjs Hu2 Ht. apply includes_ending in Hjs.
  destruct (match_at jsRe prev (u2 ++ t)) as [st|] eqn:E; [| reflexivity].
  exfalso. apply jsRe_shape in E. destruct E as [a [rest E]].
  destruct u2 as [|c1 [|c2 [|c3 u2]]]; [congruence | | |];
    try (destruct Ht as [-> | [-> | ->]]; discriminate E).
  injection E as -> -> -> _.
  pose proof (includes_at "js" (String a "") u2) as F. cbn [append] in F. congruence.
Qed.

Lemma mapJsRe_unmatched (u1 u2 t : string) (prev : option ascii) :
  includes "js" (u1 ++ u2) = false -> u2 <> "" ->
  t = ".cjs" \/ t = ".mjs" \/ t = ".cjs.map" \/ t = ".mjs.map"
  \/ t = ".d.ts" ->
  match_at mapJsRe prev (u2 ++ t) = None.
Proof.
  intros Hjs Hu2 Ht. apply includes_ending in Hjs.
  destruct (match_at mapJsRe prev (u2 ++ t)) as [st|] eqn:E; [| reflexivity].
  exfalso. apply mapJsRe_shape in E. destruct E as [a [b [rest E]]].
  destruct u2 as [|c1 [|c2 [|c3 [|c4 [|c5 [|c6 [|c7 u2]]]]]]];
    [congruence | | | | | | |];
    try (destruct Ht as [-> | [-> | [-> | [-> | ->]]]]; discriminate E).
  injection E as -> -> -> -> -> -> -> _.
  pose proof (includes_at "js" (String a ("map" ++ String b "")) u2) as F. cbn [append] in F. congruence.
Qed.

Lemma dtsRe_unmatched (u1 u2 t : string) (prev : option ascii) :
  includes "ts" (u1 ++ u2) = false -> u2 <> "" ->
  t = ".cjs" \/ t = ".mjs" \/ t = ".cjs.map" \/ t = ".mjs.map"
  \/ t = ".d.ts" ->
  match_at dtsRe prev (u2 ++ t) = None.
Proof.
  intros Hts Hu2 Ht. apply includes_ending in Hts.
  destruct (match_at dtsRe prev (u2 ++ t)) as [st|] eqn:E; [| reflexivity].
  exfalso. apply dtsRe_shape in E. destruct E as [a [b [rest E]]].
  destruct u2 as [|c1 [|c2 [|c3 [|c4 [|c5 u2]]]]];
    [congruence | | | | |];
    try (destruct Ht as [-> | [-> | [-> | [-> | ->]]]]; discriminate E).
  injection E as -> -> -> -> -> _.
  pose proof (includes_at "ts" (String a ("d" ++ String b "")) u2) as F. cbn [append] in F. congruence.
Qed.

(** what one replacement makes of a stem without matches and an ending *)
Lemma replace_all_ending (r : regex) (rep stem t t' : string) :
  (forall prev u1 u2, stem = u1 ++ u2 -> u2 <> "" ->
                      match_at r prev (u2 ++ t) = None) ->
  (forall prev, scan r rep 0 prev t = t') ->
  replace_all r rep (stem ++ t) = stem ++ t'.
Proof.
  intros H Ht. unfold replace_all. rewrite scan_unmatched by exact H.
  now rewrite Ht.
Qed.

(** X13: for an artifact name whose stem (the name without its ending
    [.js], [.js.map] or [.d.ts]) holds neither [js] nor [ts], the three
    replacements of each compiler change the ending and nothing else: the
    written names are the stem with [.cjs], [.cjs.map], [.d.cts], and with
    [.mjs], [.mjs.map], [.d.mts]. *)
Theorem output_names_exact (stem : string) :
  includes "js" stem = false -> includes "ts" stem = false ->
  cjsOutName (stem ++ ".js") = stem ++ ".cjs"
  /\ cjsOutName (stem ++ ".js.map") = stem ++ ".cjs.map"
  /\ cjsOutName (stem ++ ".d.ts") = stem ++ ".d.cts"
  /\ esmOutName (stem ++ ".js") = stem ++ ".mjs"
  /\ esmOutName (stem ++ ".js.map") = stem ++ ".mjs.map"
  /\ esmOutName (stem ++ ".d.ts") = stem ++ ".d.mts".
Proof.
  intros Hjs Hts.
  assert (J : forall rep t t',
             t = ".js" \/ t = ".js.map" \/ t = ".d.ts" ->
             (forall prev, scan jsRe rep 0 prev t = t') ->
             replace_all jsRe rep (stem ++ t) = stem ++ t').
  { intros rep t t' Ht E. apply replace_all_ending; [| exact E].
    intros prev u1 u2 -> Hu2. now apply (jsRe_unmatched u1). }
  assert (M : forall rep t,
             t = ".cjs" \/ t = ".mjs" \/ t = ".cjs.map" \/ t = ".mjs.map"
             \/ t = ".d.ts" ->
             (forall prev, scan mapJsRe rep 0 prev t = t) ->
             replace_all mapJsRe rep (stem ++ t) = stem ++ t).
  { intros rep t Ht E. apply replace_all_ending; [| exact E].
    intros prev u1 u2 -> Hu2. now apply (mapJsRe_unmatched u1). }
  assert (D : forall rep t t',
             t = ".cjs" \/ t = ".mjs" \/ t = ".cjs.map" \/ t = ".mjs.map"
             \/ t = ".d.ts" ->
             (forall prev, scan dtsRe rep 0 prev t = t') ->
             replace_all dtsRe rep (stem ++ t) = stem ++ t').
  { intros rep t t' Ht E. apply replace_all_ending; [| exact E].
    intros prev u1 u2 -> Hu2. now apply (dtsRe_unmatched u1). }
  unfold cjsOutName, esmOutName.
  repeat split.
  - rewrite (J ".cjs" ".js" ".cjs"), (M ".map.cjs" ".cjs"),
      (D ".d.cts" ".cjs" ".cjs"); tauto || reflexivity.
  - rewrite (J ".cjs" ".js.map" ".cjs.map"), (M ".map.cjs" ".cjs.map"),
      (D ".d.cts" ".cjs.map" ".cjs.map"); tauto || reflexivity.
  - rewrite (J ".cjs" ".d.ts" ".d.ts"), (M ".map.cjs" ".d.ts"),
      (D ".d.cts" ".d.ts" ".d.cts"); tauto || reflexivity.
  - rewrite (J ".mjs" ".js" ".mjs"), (M ".map.mjs" ".mjs"),
      (D ".d.mts" ".mjs" ".mjs"); tauto || reflexivity.
  - rewrite (J ".mjs" ".js.map" ".mjs.map"), (M ".map.mjs" ".mjs.map"),
      (D ".d.mts" ".mjs.map" ".mjs.map"); tauto || reflexivity.
  - rewrite (J ".mjs" ".d.ts" ".d.ts"), (M ".map.mjs" ".d.ts"),
      (D ".d.mts" ".d.ts" ".d.mts"); tauto || reflexivity.
Qed.

Lemma output_names_exact_witness :
  cjsOutName "dist/index.js" = "dist/index.cjs"
  /\ cjsOutName "dist/index.js.map" = "dist/index.cjs.map"
  /\ cjsOutName "dist/index.d.ts" = "dist/index.d.cts"
  /\ esmOutName "dist/index.js" = "dist/index.mjs"
  /\ esmOutName "dist/index.js.map" = "dist/index.mjs.map"
  /\ esmOutName "dist/index.d.ts" = "dist/index.d.mts".
Proof.
  exact (output_names_exact "dist/index" eq_refl eq_refl).
Defined.

(** ** The clean-up of the handlers *)

Lemma no_semicolon_tail (a : ascii) (s : string) :
  all_chars (fun c => negb (Ascii.eqb c ";")) (String a s) ->
  all_chars (fun c => negb (Ascii.eqb c ";")) s.
Proof. simpl. tauto. Qed.

Lemma semicolonLineRe_needs_semicolon (prev : option ascii) (s : string) :
  all_chars (fun c => negb (Ascii.eqb c ";")) s ->
  match_at semicolonLineRe prev s = None.
Proof.
  intros H. unfold match_at, semicolonLineRe, seqs.
  rewrite rmatch_seq.
  apply (rmatch_fails _ no_semicolon_tail); [| exact H].
  intros st1 H1. cbv beta. rewrite rmatch_seq.
  apply (rmatch_fails _ no_semicolon_tail); [| exact H1].
  intros st2 H2. cbv beta. rewrite rmatch_seq.
  destruct st2 as [p [|a t] caps]; [reflexivity |].
  rewrite rmatch_chr_cons. simpl in H2.
  destruct (Ascii.eqb a ";"); [now destruct H2 | reflexivity].
Qed.

(** X14: the clean-up both handlers apply to the printed text only trims a
    text that holds no semicolon: its pattern finds nothing to delete. *)
Theorem cleanup_without_semicolon (text : string) :
  all_chars (fun c => negb (Ascii.eqb c ";")) text ->
  cleanup text = trim text.
Proof.
  intros H. unfold cleanup, replace_all. f_equal.
  rewrite <- (append_nil_r text) at 1.
  rewrite scan_unmatched.
  - simpl. rewrite semicolonLineRe_needs_semicolon by exact I.
    apply append_nil_r.
  - intros prev u1 u2 -> Hu2. rewrite append_nil_r.
    apply semicolonLineRe_needs_semicolon.
    now apply all_chars_append in H.
Qed.

Lemma cleanup_without_semicolon_witness :
  cleanup (" function f() { return 1 }" ++ nl) = "function f() { return 1 }".
Proof.
  apply (cleanup_without_semicolon (" function f() { return 1 }" ++ nl)).
  simpl. repeat split; reflexivity.
Defined.
